(** * SearchServer: a shallow embedding of the in-memory search engine

    Sources embedded here:
    - [search_server.h] and [search_server.cpp]: the index, the query parser,
      ranking ([FindAllDocuments], [FindTopDocuments]), matching
      ([MatchDocument]) and document insertion and removal;
    - [concurrent_map.h]: the sharded map used by the parallel ranking path;
    - [process_queries.cpp]: [ProcessQueries] and [ProcessQueriesJoined].

    Conventions of the embedding.
    - [std::map] and [std::set] are stdpp's [gmap] and [gset]; a loop over a
      [std::map] visits the entries in ascending key order ([in_key_order]).
    - [std::string] and [std::string_view] are both [string] (a view is read
      as the characters it denotes).
    - [int] is [Z]; signed overflow and division by zero are undefined
      behaviour in C++ and are modelled by the outcome [Undefined].
    - [double] is modelled by the exact rationals [Q]; rounding is outside
      the model.  The library function [log] is a parameter.
    - A C++ exception is the outcome [Throw]; a member function that mutates
      the server returns the server as it is when the function is left.
    - Of the overloads taking an execution policy, those of [RemoveDocument]
      and [MatchDocument] are embedded; [FindAllDocuments] and
      [FindTopDocuments] are embedded for [std::execution::seq], the policy
      the overloads without one pass on. *)

From Stdlib Require Import ZArith QArith Qabs String Ascii List Lia Lqa.
From stdpp Require Import gmap strings list fin_maps sorting.

Local Open Scope string_scope.
Local Open Scope Z_scope.

(** ** Outcomes of a call *)

Inductive exception : Type :=
| invalid_argument (what : string)
| out_of_range (what : string).

Inductive res (A : Type) : Type :=
| Ok (a : A)
| Throw (e : exception)
| Undefined.

Arguments Ok {A} a.
Arguments Throw {A} e.
Arguments Undefined {A}.

#[global] Instance res_bind : MBind res := λ A B k r,
  match r with
  | Ok a => k a
  | Throw e => Throw e
  | Undefined => Undefined
  end.

Definition threw {A : Type} (r : res A) : Prop :=
  match r with Throw _ => True | _ => False end.

(** A range-based [for] whose body may throw. *)
Fixpoint for_each {A S : Type} (body : S → A → res S) (l : list A) (s : S) : res S :=
  match l with
  | [] => Ok s
  | x :: l' => s' ← body s x; for_each body l' s'
  end.

(** ** The machine type [int] *)

Module Int.

Definition MIN : Z := -2147483648.
Definition MAX : Z := 2147483647.

Definition in_range (z : Z) : bool := (MIN <=? z) && (z <=? MAX).

(** [a + b] on [int]: an overflow is undefined behaviour. *)
Definition add (a b : Z) : res Z :=
  if in_range (a + b) then Ok (a + b) else Undefined.

(** [a / b] on [int]: truncation toward zero; a zero divisor and an
    unrepresentable quotient are undefined behaviour. *)
Definition div (a b : Z) : res Z :=
  if b =? 0 then Undefined
  else if in_range (Z.quot a b) then Ok (Z.quot a b) else Undefined.

(** [static_cast<int>] of a [size_t]: reduction modulo [2^32] into the
    signed range. *)
Definition of_size (n : nat) : Z :=
  let r := Z.of_nat n mod 2 ^ 32 in
  if r <=? MAX then r else r - 2 ^ 32.

End Int.

(** ** Library algorithms *)

Section Algorithms.
Context {A : Type}.

(** [std::sort].  The comparator of [FindTopDocuments] is not a strict weak
    ordering, so what [std::sort] returns is a matter of the algorithm; the
    embedding follows libstdc++, where [std::sort] is [__insertion_sort] on a
    range of at most 16 elements and ends with insertion passes over the
    whole range on a longer one.  The sorted prefix is kept reversed, so its
    head is the element just before the one being inserted.
    [linear_insert] is [__unguarded_linear_insert], the backward scan
    [while (comp(val, *prev))]; [insert_step] is one turn of
    [__insertion_sort], which first tries [comp(val, *first)] and then moves
    [val] to the front. *)
Fixpoint linear_insert (comp : A → A → bool) (val : A) (rprefix : list A) : list A :=
  match rprefix with
  | [] => [val]
  | prev :: rest =>
      if comp val prev then prev :: linear_insert comp val rest
      else val :: rprefix
  end.

Definition insert_step (comp : A → A → bool) (rprefix : list A) (val : A) : list A :=
  match last rprefix with
  | Some first =>
      if comp val first then (rprefix ++ [val])%list
      else linear_insert comp val rprefix
  | None => [val]
  end.

Definition std_sort (comp : A → A → bool) (l : list A) : list A :=
  rev (fold_left (insert_step comp) l []).

(** [v.erase(std::unique(v.begin(), v.end()), v.end())]: of each run of equal
    neighbours the first is kept. *)
Fixpoint unique `{EqDecision A} (l : list A) : list A :=
  match l with
  | [] => []
  | x :: l' =>
      match l' with
      | [] => [x]
      | y :: _ => if decide (x = y) then unique l' else x :: unique l'
      end
  end.

(** [v.resize(n)] when [v.size() > n]. *)
Definition truncate (n : nat) (l : list A) : list A :=
  if (n <? length l)%nat then take n l else l.

End Algorithms.

(** [x] may stand directly before [y] in a sorted range: [y] does not have
    to precede [x], or [x] has to precede [y]. *)
Definition in_order {A : Type} (comp : A → A → bool) (x y : A) : Prop :=
  comp y x = false ∨ comp x y = true.

(** The entries of a [std::map] in iteration order. *)
Definition in_key_order {K V : Type} `{Countable K}
    (le : relation K) `{∀ x y, Decision (le x y)} (m : gmap K V) : list (K * V) :=
  merge_sort (λ a b, le a.1 b.1) (map_to_list m).

Definition string_le (a b : string) : Prop := String.leb a b = true.

#[global] Instance string_le_dec a b : Decision (string_le a b).
Proof. unfold string_le. apply _. Defined.

(** [a < b] on [std::string]. *)
Definition string_lt (a b : string) : Prop := String.ltb a b = true.

Definition by_id {V : Type} (m : gmap Z V) : list (Z * V) :=
  in_key_order Z.le m.

Definition by_word {V : Type} (m : gmap string V) : list (string * V) :=
  in_key_order string_le m.

(** ** Documents *)

(** Modelled from the spec: [document.h] is not among the sources; the
    enumerators are those of the document status domain the spec fixes. *)
Inductive DocumentStatus : Type := ACTUAL | IRRELEVANT | BANNED | REMOVED.

#[global] Instance DocumentStatus_eq_dec : EqDecision DocumentStatus.
Proof. solve_decision. Defined.

(** Modelled from the spec: the hit [(id, relevance, rating)] of
    [document.h], built by the code as [{document_id, relevance, rating}]. *)
Record Document : Type := mkDocument {
  id : Z;
  relevance : Q;
  rating : Z
}.

Definition EPSILON : Q := 1 # 1000000.
Definition MAX_RESULT_DOCUMENT_COUNT : nat := 5.

Definition Qltb (a b : Q) : bool := negb (Qle_bool b a).

(** The comparator passed to [sort] in [FindTopDocuments]. *)
Definition by_relevance (lhs rhs : Document) : bool :=
  Qltb (relevance rhs) (relevance lhs)
  || (Qltb (Qabs (relevance lhs - relevance rhs)) EPSILON
      && (rating rhs <? rating lhs)).

(** ** The index *)

Module DocumentData.
Record t : Type := make {
  rating : Z;
  status : DocumentStatus
}.
End DocumentData.

Record QueryWord : Type := mkQueryWord {
  data : string;
  is_minus : bool;
  is_stop : bool
}.

Record Query : Type := mkQuery {
  plus_words : list string;
  minus_words : list string
}.

Definition matched_documents : Type := list string * DocumentStatus.

Definition DocumentPredicate : Type := Z → DocumentStatus → Z → bool.

Record SearchServer : Type := mkSearchServer {
  stop_words_ : gset string;
  word_to_document_freqs_ : gmap string (gmap Z Q);
  document_to_word_freqs_ : gmap Z (gmap string Q);
  documents_ : gmap Z DocumentData.t;
  document_ids_ : gset Z
}.

(** The function-local [static] variables of the two [MatchDocument] bodies:
    [None] until the initialiser has run to completion once. *)
Record Statics : Type := mkStatics {
  MatchDocument_query : option Query;
  MatchDocument_parallel_query : option Query
}.

Definition program_start : Statics := mkStatics None None.

(** [m.at(k)] *)
Definition map_at {K V : Type} `{Countable K} (m : gmap K V) (k : K) : res V :=
  match m !! k with
  | Some v => Ok v
  | None => Throw (out_of_range "map::at")
  end.

(** [m.emplace(k, v)]: no effect when the key is present. *)
Definition emplace {K V : Type} `{Countable K} (k : K) (v : V) (m : gmap K V) : gmap K V :=
  match m !! k with
  | Some _ => m
  | None => <[k := v]> m
  end.

(** [c >= '\0' && c < ' ']: true of the bytes 0 to 31, whether [char] is
    signed or not. *)
Definition is_control (c : ascii) : bool := (nat_of_ascii c <? 32)%nat.

Fixpoint none_of (p : ascii → bool) (word : string) : bool :=
  match word with
  | EmptyString => true
  | String c rest => negb (p c) && none_of p rest
  end.

Definition IsValidWord (word : string) : bool := none_of is_control word.

Definition IsStopWord (s : SearchServer) (word : string) : bool :=
  bool_decide (word ∈ stop_words_ s).

Definition GetDocumentCount (s : SearchServer) : Z :=
  Int.of_size (size (documents_ s)).

(** Modelled from the spec: [MakeUniqueNonEmptyStrings] of
    [string_processing.h] is not among the sources; the stop words are a set
    of terms, the empty string left out. *)
Definition MakeUniqueNonEmptyStrings (strings : list string) : gset string :=
  list_to_set (filter (λ str, str ≠ "") strings).

(** The constructor from a container of stop words. *)
Definition new_SearchServer (stop_words : list string) : res SearchServer :=
  let stop_words_ := MakeUniqueNonEmptyStrings stop_words in
  if forallb IsValidWord (elements stop_words_)
  then Ok (mkSearchServer stop_words_ ∅ ∅ ∅ ∅)
  else Throw (invalid_argument "Some of stop words are invalid").

Definition ParseQueryWord (s : SearchServer) (text : string) : res QueryWord :=
  if bool_decide (text = "") then Throw (invalid_argument "Query word is empty")
  else
    let '(word, is_minus) :=
      match text with
      | String "-" rest => (rest, true)
      | _ => (text, false)
      end in
    if bool_decide (word = "") || String.prefix "-" word || negb (IsValidWord word)
    then Throw (invalid_argument (String.append "Query word " (String.append text " is invalid")))
    else Ok (mkQueryWord word is_minus (IsStopWord s word)).

Definition ComputeAverageRating (ratings : list Z) : res Z :=
  rating_sum ← for_each Int.add ratings 0;
  Int.div rating_sum (Int.of_size (length ratings)).

Definition GetWordFrequencies (s : SearchServer) (document_id : Z) : gmap string Q :=
  match document_to_word_freqs_ s !! document_id with
  | Some word_freqs => word_freqs
  | None => ∅
  end.

(** One turn of the loop of [SplitIntoWordsNoStop]. *)
Definition keep_word (s : SearchServer) (words : list string) (word : string)
    : res (list string) :=
  if negb (IsValidWord word)
  then Throw (invalid_argument (String.append "Word " (String.append word " is invalid")))
  else if negb (IsStopWord s word) then Ok (words ++ [word])%list else Ok words.

(** One turn of the loop of [ParseQuery]. *)
Definition add_query_word (s : SearchServer) (result : Query) (word : string) : res Query :=
  query_word ← ParseQueryWord s word;
  if negb (is_stop query_word) then
    if is_minus query_word
    then Ok (mkQuery (plus_words result) (minus_words result ++ [data query_word])%list)
    else Ok (mkQuery (plus_words result ++ [data query_word])%list (minus_words result))
  else Ok result.

(** One turn of the loop of [AddDocument]: [m[a][b] += inv_word_count] on
    both maps; [operator[]] makes a missing slot with value zero. *)
Definition add_word (document_id : Z) (inv_word_count : Q)
    (s : SearchServer) (word : string) : SearchServer :=
  let docs := default ∅ (word_to_document_freqs_ s !! word) in
  let words := default ∅ (document_to_word_freqs_ s !! document_id) in
  mkSearchServer (stop_words_ s)
    (<[word := <[document_id := (default 0%Q (docs !! document_id) + inv_word_count)%Q]> docs]>
       (word_to_document_freqs_ s))
    (<[document_id := <[word := (default 0%Q (words !! word) + inv_word_count)%Q]> words]>
       (document_to_word_freqs_ s))
    (documents_ s)
    (document_ids_ s).

(** One turn of the loop of [RemoveDocument]:
    [word_to_document_freqs_[word].erase(document_id)]. *)
Definition erase_posting (document_id : Z)
    (postings : gmap string (gmap Z Q)) (word : string) : gmap string (gmap Z Q) :=
  <[word := delete document_id (default ∅ (postings !! word))]> postings.

Definition RemoveDocument (s : SearchServer) (document_id : Z) : SearchServer :=
  let word_frequencies := GetWordFrequencies s document_id in
  let postings :=
    fold_left (λ m it, erase_posting document_id m it.1)
      (by_word word_frequencies) (word_to_document_freqs_ s) in
  mkSearchServer (stop_words_ s)
    postings
    (delete document_id (document_to_word_freqs_ s))
    (delete document_id (documents_ s))
    (document_ids_ s ∖ {[document_id]}).

Definition RemoveDocument_sequenced_policy (s : SearchServer) (document_id : Z) : SearchServer :=
  RemoveDocument s document_id.

(** The parallel overload first copies the keys into [result], then erases
    per key under [std::for_each(std::execution::par, ...)].  Each erasure
    is one call [word_to_document_freqs_[p].erase(document_id)], on the inner
    map of its own key; [order] is the order in which the calls take
    effect. *)
Definition RemoveDocument_parallel_policy_in (order : list string)
    (s : SearchServer) (document_id : Z) : SearchServer :=
  let postings :=
    fold_left (erase_posting document_id) order (word_to_document_freqs_ s) in
  mkSearchServer (stop_words_ s)
    postings
    (delete document_id (document_to_word_freqs_ s))
    (delete document_id (documents_ s))
    (document_ids_ s ∖ {[document_id]}).

(** The vector [result] of the parallel overload. *)
Definition copied_keys (s : SearchServer) (document_id : Z) : list string :=
  map (λ it, it.1) (by_word (GetWordFrequencies s document_id)).

(** The parallel overload, the erasures taking effect in the order of
    [result]. *)
Definition RemoveDocument_parallel_policy (s : SearchServer) (document_id : Z) : SearchServer :=
  RemoveDocument_parallel_policy_in (copied_keys s document_id) s document_id.

(** [word_to_document_freqs_.count(word) != 0 &&
     word_to_document_freqs_.at(word).count(document_id)] *)
Definition word_in_document (s : SearchServer) (document_id : Z) (word : string) : bool :=
  match word_to_document_freqs_ s !! word with
  | Some docs => bool_decide (is_Some (docs !! document_id))
  | None => false
  end.

(** The body of the plain [MatchDocument] below the declaration of [query]. *)
Definition match_with (s : SearchServer) (query : Query) (document_id : Z) : res matched_documents :=
  if existsb (word_in_document s document_id) (minus_words query)
  then data ← map_at (documents_ s) document_id; Ok ([], DocumentData.status data)
  else
    let matched_words := List.filter (word_in_document s document_id) (plus_words query) in
    data ← map_at (documents_ s) document_id;
    Ok (matched_words, DocumentData.status data).

(** The body of the parallel overload below the declaration of [query]. *)
Definition match_with_parallel (s : SearchServer) (query : Query) (document_id : Z) : res matched_documents :=
  if existsb (word_in_document s document_id) (minus_words query)
  then data ← map_at (documents_ s) document_id; Ok ([], DocumentData.status data)
  else
    let matched_words := List.filter (word_in_document s document_id) (plus_words query) in
    let matched_words := unique (std_sort String.ltb matched_words) in
    data ← map_at (documents_ s) document_id;
    Ok (matched_words, DocumentData.status data).

(** One turn of the inner loop over a term's postings in [FindAllDocuments]. *)
Definition accumulate (s : SearchServer) (document_predicate : DocumentPredicate)
    (inverse_document_freq : Q) (document_to_relevance : gmap Z Q) (posting : Z * Q)
    : res (gmap Z Q) :=
  let '(document_id, term_freq) := posting in
  document_data ← map_at (documents_ s) document_id;
  if document_predicate document_id (DocumentData.status document_data)
       (DocumentData.rating document_data)
  then Ok (<[document_id :=
              (default 0%Q (document_to_relevance !! document_id)
               + term_freq * inverse_document_freq)%Q]> document_to_relevance)
  else Ok document_to_relevance.

(** One turn of the loop over the minus words in [FindAllDocuments]. *)
Definition erase_matches (s : SearchServer) (document_to_relevance : gmap Z Q)
    (word : string) : gmap Z Q :=
  match word_to_document_freqs_ s !! word with
  | Some docs =>
      fold_left (λ m posting, delete posting.1 m) (by_id docs) document_to_relevance
  | None => document_to_relevance
  end.

(** The last loop of [FindAllDocuments]. *)
Definition emit (s : SearchServer) (matched : list Document) (entry : Z * Q)
    : res (list Document) :=
  let '(document_id, relevance) := entry in
  document_data ← map_at (documents_ s) document_id;
  Ok (matched ++ [mkDocument document_id relevance (DocumentData.rating document_data)])%list.

Section Model.

(** Tokenisation ([string_processing.h]) is not among the sources: the
    server is embedded over an arbitrary tokeniser.  [log] is the C library
    function. *)
Variable SplitIntoWords : string → list string.
Variable log : Q → Q.

Definition SplitIntoWordsNoStop (s : SearchServer) (text : string) : res (list string) :=
  for_each (keep_word s) (SplitIntoWords text) [].

Definition ParseQuery (s : SearchServer) (text : string) (is_parallel : bool) : res Query :=
  result ← for_each (add_query_word s) (SplitIntoWords text) (mkQuery [] []);
  if is_parallel
  then Ok (mkQuery (unique (std_sort String.ltb (plus_words result)))
                   (unique (std_sort String.ltb (minus_words result))))
  else Ok result.

Definition ComputeWordInverseDocumentFreq (s : SearchServer) (word : string) : res Q :=
  docs ← map_at (word_to_document_freqs_ s) word;
  Ok (log (inject_Z (GetDocumentCount s) * 1 / inject_Z (Z.of_nat (size docs)))%Q).

(** [AddDocument] returns the server as the call leaves it, together with
    how the call ended. *)
Definition AddDocument (s : SearchServer) (document_id : Z) (document : string)
    (status : DocumentStatus) (ratings : list Z) : SearchServer * res unit :=
  if (document_id <? 0) || bool_decide (is_Some (documents_ s !! document_id))
  then (s, Throw (invalid_argument "Invalid document_id"))
  else
    match SplitIntoWordsNoStop s document with
    | Ok words =>
        let inv_word_count := (1 / inject_Z (Z.of_nat (length words)))%Q in
        let s := fold_left (add_word document_id inv_word_count) words s in
        match ComputeAverageRating ratings with
        | Ok rating =>
            (mkSearchServer (stop_words_ s)
               (word_to_document_freqs_ s)
               (document_to_word_freqs_ s)
               (emplace document_id (DocumentData.make rating status) (documents_ s))
               ({[document_id]} ∪ document_ids_ s),
             Ok ())
        | Throw e => (s, Throw e)
        | Undefined => (s, Undefined)
        end
    | Throw e => (s, Throw e)
    | Undefined => (s, Undefined)
    end.

(** [static const auto& query = ParseQuery(...)]: the initialiser runs when
    control first passes the declaration; if it throws, the variable stays
    uninitialised and the next call tries again. *)
Definition static_query (cached : option Query) (s : SearchServer)
    (raw_query : string) (is_parallel : bool) : res Query :=
  match cached with
  | Some query => Ok query
  | None => ParseQuery s raw_query is_parallel
  end.

Definition MatchDocument (st : Statics) (s : SearchServer) (raw_query : string)
    (document_id : Z) : Statics * res matched_documents :=
  if bool_decide (document_id ∉ document_ids_ s)
  then (st, Throw (out_of_range "Invalid document id"))
  else
    match static_query (MatchDocument_query st) s raw_query true with
    | Ok query =>
        (mkStatics (Some query) (MatchDocument_parallel_query st),
         match_with s query document_id)
    | Throw e => (st, Throw e)
    | Undefined => (st, Undefined)
    end.

Definition MatchDocument_sequenced_policy (st : Statics) (s : SearchServer)
    (raw_query : string) (document_id : Z) : Statics * res matched_documents :=
  MatchDocument st s raw_query document_id.

Definition MatchDocument_parallel_policy (st : Statics) (s : SearchServer)
    (raw_query : string) (document_id : Z) : Statics * res matched_documents :=
  if bool_decide (document_id ∉ document_ids_ s)
  then (st, Throw (out_of_range "Invalid document id"))
  else
    match static_query (MatchDocument_parallel_query st) s raw_query false with
    | Ok query =>
        (mkStatics (MatchDocument_query st) (Some query),
         match_with_parallel s query document_id)
    | Throw e => (st, Throw e)
    | Undefined => (st, Undefined)
    end.

(** [FindAllDocuments(std::execution::seq, query, document_predicate)] *)
Definition FindAllDocuments (s : SearchServer) (query : Query)
    (document_predicate : DocumentPredicate) : res (list Document) :=
  document_to_relevance ← for_each
    (λ document_to_relevance word,
       match word_to_document_freqs_ s !! word with
       | Some docs =>
           inverse_document_freq ← ComputeWordInverseDocumentFreq s word;
           for_each (accumulate s document_predicate inverse_document_freq)
             (by_id docs) document_to_relevance
       | None => Ok document_to_relevance
       end)
    (plus_words query) ∅;
  let document_to_relevance :=
    fold_left (erase_matches s) (minus_words query) document_to_relevance in
  for_each (emit s) (by_id document_to_relevance) [].

(** [FindTopDocuments(std::execution::seq, raw_query, document_predicate)],
    which the overload without a policy calls. *)
Definition FindTopDocuments (s : SearchServer) (raw_query : string)
    (document_predicate : DocumentPredicate) : res (list Document) :=
  query ← ParseQuery s raw_query true;
  matched_documents ← FindAllDocuments s query document_predicate;
  Ok (truncate MAX_RESULT_DOCUMENT_COUNT (std_sort by_relevance matched_documents)).

Definition FindTopDocuments_status (s : SearchServer) (raw_query : string)
    (status : DocumentStatus) : res (list Document) :=
  FindTopDocuments s raw_query
    (λ document_id document_status rating, bool_decide (document_status = status)).

Definition FindTopDocuments_actual (s : SearchServer) (raw_query : string) : res (list Document) :=
  FindTopDocuments_status s raw_query ACTUAL.

End Model.

(** ** A tokeniser to run the model on *)

(** Modelled from the spec: [SplitIntoWords] of [string_processing.h] is not
    among the sources; the spec gives its contract as the sequence of
    whitespace-delimited tokens.  Here the text is split at the space
    character and empty tokens are dropped. *)
Fixpoint split_on_spaces_from (word : string) (text : string) : list string :=
  match text with
  | EmptyString => if bool_decide (word = "") then [] else [word]
  | String c rest =>
      if bool_decide (c = " "%char)
      then (if bool_decide (word = "") then [] else [word]) ++ split_on_spaces_from "" rest
      else split_on_spaces_from (String.append word (String c "")) rest
  end%list.

Definition split_on_spaces (text : string) : list string :=
  split_on_spaces_from "" text.

(** A rational stand-in for [log], used only to run the ranking functions on
    concrete inputs. *)
Definition log_stub (x : Q) : Q := (x - 1)%Q.

(** ** Sequences of mutations *)

Inductive operation : Type :=
| Add (document_id : Z) (document : string) (status : DocumentStatus) (ratings : list Z)
| Remove (document_id : Z)
| Remove_sequenced (document_id : Z)
| Remove_parallel (document_id : Z).

(** A server as the constructor leaves it. *)
Definition fresh (stop_words : gset string) : SearchServer :=
  mkSearchServer stop_words ∅ ∅ ∅ ∅.

(** The caller runs the operations one after the other, catching what
    [AddDocument] throws (as the free function [AddDocument] of
    [search_server.cpp] does) and going on with the server as the call left
    it.  A run that meets undefined behaviour has no result. *)
Fixpoint run (SplitIntoWords : string → list string) (ops : list operation)
    (s : SearchServer) : option SearchServer :=
  match ops with
  | [] => Some s
  | Add document_id document status ratings :: rest =>
      match AddDocument SplitIntoWords s document_id document status ratings with
      | (_, Undefined) => None
      | (s', _) => run SplitIntoWords rest s'
      end
  | Remove document_id :: rest =>
      run SplitIntoWords rest (RemoveDocument s document_id)
  | Remove_sequenced document_id :: rest =>
      run SplitIntoWords rest (RemoveDocument_sequenced_policy s document_id)
  | Remove_parallel document_id :: rest =>
      run SplitIntoWords rest (RemoveDocument_parallel_policy s document_id)
  end.

(** The two views of a term frequency. *)
Definition freq_by_word (s : SearchServer) (word : string) (document_id : Z) : option Q :=
  word_to_document_freqs_ s !! word ≫= λ docs, docs !! document_id.

Definition freq_by_document (s : SearchServer) (document_id : Z) (word : string) : option Q :=
  document_to_word_freqs_ s !! document_id ≫= λ words, words !! word.

Definition Zsum (l : list Z) : Z := fold_right Z.add 0 l.

Definition Qsum (l : list Q) : Q := fold_right Qplus 0%Q l.

(** The values of a [std::map], in an unspecified order. *)
Definition values {K : Type} `{Countable K} (m : gmap K Q) : list Q :=
  map snd (map_to_list m).

(** The sum of a document's term frequencies, taken over
    [GetWordFrequencies] in iteration order. *)
Definition frequency_sum (s : SearchServer) (document_id : Z) : Q :=
  Qsum (map snd (by_word (GetWordFrequencies s document_id))).

Definition TOLERANCE : Q := 1 # 1000000000.

(** The dual index: both maps give every pair of a term and a document the
    same entry. *)
Definition views_agree_on (s : SearchServer) : Prop :=
  ∀ word d, freq_by_word s word d = freq_by_document s d word.

(** What every reachable server satisfies. *)
Record consistent (s : SearchServer) : Prop := {
  views_agree : views_agree_on s;
  indexed_is_stored : ∀ document_id,
    is_Some (document_to_word_freqs_ s !! document_id) →
    is_Some (documents_ s !! document_id);
  ids_are_stored : ∀ document_id,
    document_id ∈ document_ids_ s ↔ is_Some (documents_ s !! document_id);
  frequencies_sum_to_one : ∀ document_id words,
    document_to_word_freqs_ s !! document_id = Some words →
    words ≠ ∅ ∧ (Qsum (values words) == 1)%Q
}.

(** ** The sharded map of [concurrent_map.h] *)

Module ConcurrentMap.

(** What a member function does to the buckets, in program order. *)
Inductive event : Type :=
| lock (bucket : nat)              (* a guard on [localm] is constructed *)
| unlock (bucket : nat)            (* the guard is destroyed *)
| find (bucket : nat) (key : Z)    (* [local.find(key)] *)
| subscript (bucket : nat) (key : Z)   (* [local[key]] *)
| erase (bucket : nat) (key : Z)   (* [local.erase(key)] *)
| read_all (bucket : nat).         (* [local.begin()] to [local.end()] *)

(** The bucket whose map an event reads or writes. *)
Definition accessed (e : event) : option nat :=
  match e with
  | lock _ | unlock _ => None
  | find b _ | subscript b _ | erase b _ | read_all b => Some b
  end.

(** Every access to a bucket's map happens while this thread holds the
    bucket's mutex. *)
Fixpoint lock_discipline (held : gset nat) (trace : list event) : bool :=
  match trace with
  | [] => true
  | lock b :: rest => lock_discipline ({[b]} ∪ held) rest
  | unlock b :: rest => lock_discipline (held ∖ {[b]}) rest
  | e :: rest =>
      match accessed e with
      | Some b => bool_decide (b ∈ held) && lock_discipline held rest
      | None => lock_discipline held rest
      end
  end.

Section Value.
Context {Value : Type}.

(** [megamap_]: the maps of the buckets (each bucket's mutex is free between
    calls). *)
Definition buckets : Type := list (gmap Z Value).

Definition ConcurrentMap_new (bucket_count : nat) : buckets :=
  replicate bucket_count ∅.

(** [static_cast<uint64_t>(key) % megamap_.size()] *)
Definition select (megamap_ : buckets) (key : Z) : nat :=
  Z.to_nat ((key mod 2 ^ 64) mod Z.of_nat (length megamap_)).

(** The statement [map[key].ref_to_value = f(map[key].ref_to_value)]: the
    temporary [Access] locks the bucket, [local[key]] makes the slot
    ([zero] when new), and the guard is released when the temporary dies.
    With no bucket the remainder is undefined. *)
Definition update (zero : Value) (f : Value → Value) (key : Z) (megamap_ : buckets)
    : res (buckets * list event) :=
  if bool_decide (length megamap_ = 0%nat) then Undefined
  else
    let select := select megamap_ key in
    let local := default ∅ (megamap_ !! select) in
    let value := default zero (local !! key) in
    Ok (<[select := <[key := f value]> local]> megamap_,
        [lock select; subscript select key; unlock select]).

Fixpoint BuildOrdinaryMap_from (bucket : nat) (megamap_ : buckets) (total : gmap Z Value)
    : gmap Z Value * list event :=
  match megamap_ with
  | [] => (total, [])
  | item :: rest =>
      (* [total.insert(first, last)] keeps the entries [total] already has *)
      let '(total, trace) := BuildOrdinaryMap_from (S bucket) rest (total ∪ item) in
      (total, lock bucket :: read_all bucket :: unlock bucket :: trace)
  end.

Definition BuildOrdinaryMap (megamap_ : buckets) : gmap Z Value * list event :=
  BuildOrdinaryMap_from 0 megamap_ ∅.

Fixpoint Erase_from (bucket : nat) (key : Z) (megamap_ : buckets) : buckets * list event :=
  match megamap_ with
  | [] => ([], [])
  | item :: rest =>
      let '(rest, trace) := Erase_from (S bucket) key rest in
      if bool_decide (is_Some (item !! key))
      then (delete key item :: rest,
            find bucket key :: lock bucket :: erase bucket key :: unlock bucket :: trace)
      else (item :: rest, find bucket key :: trace)
  end.

Definition Erase (key : Z) (megamap_ : buckets) : buckets * list event :=
  Erase_from 0 key megamap_.

End Value.

End ConcurrentMap.

(** ** Inputs to run the model on *)

(** The example of the spec: stop words [and], [in], [on] and two documents. *)
Definition example_stop_words : gset string := {[ "and"; "in"; "on" ]}.

Definition example_operations : list operation :=
  [ Add 0 "a colorful parrot with green wings and red head" ACTUAL [8; -3];
    Add 1 "a grey hound with black ears" ACTUAL [5; -12; 2; 0] ].

Definition example_server : SearchServer :=
  default (fresh example_stop_words)
    (run split_on_spaces example_operations (fresh example_stop_words)).

(** A server whose only document has no words. *)
Definition empty_document_server : SearchServer :=
  (AddDocument split_on_spaces (fresh example_stop_words) 0 "" ACTUAL [1]).1.

Definition any_document : DocumentPredicate := λ _ _ _, true.

(** The hits for the query "a with": both documents. *)
Definition example_hits : list Document :=
  match FindTopDocuments split_on_spaces log_stub example_server "a with" any_document with
  | Ok hits => hits
  | _ => []
  end.

(** The hits for the query "a with -ears": document 0 alone. *)
Definition example_hits_without_ears : list Document :=
  match FindTopDocuments split_on_spaces log_stub example_server "a with -ears"
          any_document with
  | Ok hits => hits
  | _ => []
  end.

(** Three buckets, key 7 stored (in bucket 1). *)
Definition example_buckets : ConcurrentMap.buckets (Value := Q) :=
  [∅; {[ 7 := (1 # 2)%Q ]}; ∅].

(** ** Vocabulary of the statements *)

(** [text.substr(1)] *)
Definition substr_1 (text : string) : string :=
  match text with
  | EmptyString => EmptyString
  | String _ rest => rest
  end.

(** The tokens [ParseQueryWord] refuses: the empty token, a lone minus, a
    token with two leading minuses, a token with a character below 0x20. *)
Definition malformed_token (token : string) : bool :=
  bool_decide (token = "") || bool_decide (token = "-")
  || String.prefix "--" token || negb (IsValidWord token).

(** The tokens that [ParseQuery] turns into plus words and into minus words. *)
Definition plus_token (s : SearchServer) (token : string) : bool :=
  negb (String.prefix "-" token) && negb (IsStopWord s token).

Definition minus_token (s : SearchServer) (token : string) : bool :=
  String.prefix "-" token && negb (IsStopWord s (substr_1 token)).

(** What a range-based [for] over the server visits: [begin()] to [end()],
    the iterators of the [std::set<int>] [document_ids_]. *)
Definition begin_to_end (s : SearchServer) : list Z :=
  merge_sort Z.le (elements (document_ids_ s)).

(** The example server after
    [AddDocument(2, "fat cat and fat dog", ACTUAL, {7, 2, 7})]. *)
Definition example_server_with_cat : SearchServer :=
  (AddDocument split_on_spaces example_server 2 "fat cat and fat dog" ACTUAL [7; 2; 7]).1.

(** [document_predicate(document_id, document_data.status, document_data.rating)]
    for a stored document. *)
Definition selects (s : SearchServer) (document_predicate : DocumentPredicate) (d : Z) : bool :=
  match documents_ s !! d with
  | Some document_data =>
      document_predicate d (DocumentData.status document_data)
        (DocumentData.rating document_data)
  | None => false
  end.

(** [term_freq * inverse_document_freq] of a term for a document: zero when
    the term has no posting for the document. *)
Definition tf_idf (log : Q → Q) (s : SearchServer) (d : Z) (word : string) : Q :=
  match word_to_document_freqs_ s !! word with
  | Some docs =>
      (default 0 (docs !! d)
       * log (inject_Z (GetDocumentCount s) * 1 / inject_Z (Z.of_nat (size docs))))%Q
  | None => 0%Q
  end.

(** The hit [FindAllDocuments] makes of an entry of [document_to_relevance]. *)
Definition hit_of (s : SearchServer) (entry : Z * Q) : Document :=
  mkDocument entry.1 entry.2
    (default 0 (DocumentData.rating <$> documents_ s !! entry.1)).

(** Every posting is of a stored document. *)
Definition postings_are_stored (s : SearchServer) : Prop :=
  ∀ word d, is_Some (freq_by_word s word d) → is_Some (documents_ s !! d).

(** Every key of a [ConcurrentMap] is stored in the bucket that
    [operator[]] selects for it. *)
Definition keys_in_own_bucket {Value : Type}
    (megamap_ : ConcurrentMap.buckets (Value := Value)) : Prop :=
  ∀ (bucket : nat) (item : gmap Z Value) (key : Z),
    megamap_ !! bucket = Some item → is_Some (item !! key) →
    ConcurrentMap.select megamap_ key = bucket.

(** ** Batches of queries: [process_queries.cpp] *)

(** How a call that runs a parallel algorithm ends.  An exception that leaves
    the function applied by [std::transform(std::execution::par, ...)] is
    not passed on to the caller: [std::terminate] is called. *)
Inductive parallel_res (A : Type) : Type :=
| Returned (a : A)
| Terminated
| Undefined_behaviour.

Arguments Returned {A} a.
Arguments Terminated {A}.
Arguments Undefined_behaviour {A}.

Definition is_Undefined {A : Type} (r : res A) : bool :=
  match r with Undefined => true | _ => false end.

Definition is_Throw {A : Type} (r : res A) : bool :=
  match r with Throw _ => true | _ => false end.

Section Batch.

Variable SplitIntoWords : string → list string.
Variable log : Q → Q.

(** The calls [search_server.FindTopDocuments(query)] only read the server
    and write to separate elements of [documents_lists], so what is returned
    does not depend on how they are scheduled. *)
Definition ProcessQueries (search_server : SearchServer) (queries : list string)
    : parallel_res (list (list Document)) :=
  let results := map (FindTopDocuments_actual SplitIntoWords log search_server) queries in
  if existsb is_Undefined results then Undefined_behaviour
  else if existsb is_Throw results then Terminated
  else Returned (map (λ result, match result with Ok hits => hits | _ => [] end) results).

Definition ProcessQueriesJoined (search_server : SearchServer) (queries : list string)
    : parallel_res (list Document) :=
  match ProcessQueries search_server queries with
  | Returned ans => Returned (concat ans)
  | Terminated => Terminated
  | Undefined_behaviour => Undefined_behaviour
  end.

End Batch.

(** * Properties *)

(** ** Outcomes *)

Lemma bind_Ok {A B : Type} (r : res A) (k : A → res B) (b : B) :
  r ≫= k = Ok b ↔ ∃ a, r = Ok a ∧ k a = Ok b.
Proof.
  destruct r as [a | e |]; simpl.
  - split; [intros Hk; exists a; auto | intros (a' & [= <-] & Hk); exact Hk].
  - split; [discriminate | intros (a' & [=] & _)].
  - split; [discriminate | intros (a' & [=] & _)].
Qed.

(** ** [int] arithmetic and [ComputeAverageRating] *)

Lemma of_size_small (n : nat) :
  Z.of_nat n ≤ Int.MAX → Int.of_size n = Z.of_nat n.
Proof.
  unfold Int.of_size, Int.MAX. intros Hn.
  rewrite Z.mod_small by lia.
  destruct (Z.leb_spec (Z.of_nat n) 2147483647); lia.
Qed.

Lemma sum_loop_Ok (ratings : list Z) (acc total : Z) :
  for_each Int.add ratings acc = Ok total → total = acc + Zsum ratings.
Proof.
  revert acc. induction ratings as [| r ratings IH]; intros acc; simpl.
  - intros [= <-]. lia.
  - destruct (Int.add acc r) as [acc' | e |] eqn:Hadd; simpl; [| discriminate..].
    unfold Int.add in Hadd. destruct (Int.in_range (acc + r)); [| discriminate].
    injection Hadd as <-. intros Hrest. apply IH in Hrest. lia.
Qed.

Lemma sum_loop_no_throw (ratings : list Z) (acc : Z) :
  ¬ threw (for_each Int.add ratings acc).
Proof.
  revert acc. induction ratings as [| r ratings IH]; intros acc; simpl; [tauto |].
  destruct (Int.add acc r) as [acc' | e |] eqn:Hadd; simpl; [apply IH | | tauto].
  unfold Int.add in Hadd. destruct (Int.in_range (acc + r)); discriminate.
Qed.

Lemma sum_loop_returns (ratings : list Z) (acc : Z) :
  (∀ k, Int.in_range (acc + Zsum (take k ratings)) = true) →
  for_each Int.add ratings acc = Ok (acc + Zsum ratings).
Proof.
  revert acc. induction ratings as [| r ratings IH]; intros acc Hrange; simpl.
  - f_equal. lia.
  - pose proof (Hrange 1%nat) as Hfirst. cbn [take Zsum fold_right] in Hfirst.
    rewrite take_0 in Hfirst. cbn [fold_right] in Hfirst. rewrite Z.add_0_r in Hfirst.
    destruct (Int.add acc r) as [acc' | e |] eqn:Hadd;
      unfold Int.add in Hadd; rewrite Hfirst in Hadd; [| discriminate..].
    injection Hadd as <-. simpl.
    rewrite IH; [f_equal; lia |].
    intros k. specialize (Hrange (S k)). simpl in Hrange.
    by rewrite Z.add_assoc in Hrange.
Qed.

Lemma ComputeAverageRating_no_throw (ratings : list Z) :
  ¬ threw (ComputeAverageRating ratings).
Proof.
  unfold ComputeAverageRating.
  pose proof (sum_loop_no_throw ratings 0) as Hsum.
  destruct (for_each Int.add ratings 0) as [total | e |]; simpl in *; [| tauto | tauto].
  unfold Int.div. repeat case_match; simpl; tauto.
Qed.

Lemma ComputeAverageRating_Ok (ratings : list Z) (rating : Z) :
  ComputeAverageRating ratings = Ok rating →
  rating = Z.quot (Zsum ratings) (Int.of_size (length ratings))
  ∧ Int.of_size (length ratings) ≠ 0.
Proof.
  unfold ComputeAverageRating. intros (total & Hsum & Hdiv)%bind_Ok.
  apply sum_loop_Ok in Hsum. subst total.
  unfold Int.div in Hdiv.
  destruct (Z.eqb_spec (Int.of_size (length ratings)) 0); [discriminate |].
  destruct (Int.in_range _); [| discriminate].
  injection Hdiv as <-. split; [reflexivity | assumption].
Qed.

(** X8.  With at least one rating, and every partial sum within [int],
    [ComputeAverageRating] returns the truncated mean. *)
Lemma ComputeAverageRating_returns (ratings : list Z) :
  ratings ≠ [] →
  Z.of_nat (length ratings) ≤ Int.MAX →
  (∀ k, Int.in_range (Zsum (take k ratings)) = true) →
  ComputeAverageRating ratings
  = Ok (Z.quot (Zsum ratings) (Z.of_nat (length ratings))).
Proof.
  intros Hsome Hsize Hrange. unfold ComputeAverageRating.
  rewrite sum_loop_returns by (intros k; by rewrite Z.add_0_l).
  simpl. rewrite Z.add_0_l, of_size_small by done.
  assert (0 < Z.of_nat (length ratings)) as Hpos.
  { destruct ratings; [done | simpl length; lia]. }
  unfold Int.div. destruct (Z.eqb_spec (Z.of_nat (length ratings)) 0); [lia |].
  specialize (Hrange (length ratings)). rewrite firstn_all in Hrange.
  assert (Int.in_range (Zsum ratings ÷ Z.of_nat (length ratings)) = true) as ->; [| done].
  unfold Int.in_range, Int.MIN, Int.MAX in *.
  apply andb_true_iff in Hrange as [Hlow%Z.leb_le Hhigh%Z.leb_le].
  pose proof (Z.quot_rem' (Zsum ratings) (Z.of_nat (length ratings))) as Hquot.
  assert (Zsum ratings ≤ Zsum ratings ÷ Z.of_nat (length ratings) ≤ 0
          ∨ 0 ≤ Zsum ratings ÷ Z.of_nat (length ratings) ≤ Zsum ratings) as Hbetween.
  { destruct (Z.le_gt_cases 0 (Zsum ratings)) as [Hsign | Hsign].
    - pose proof (Z.rem_bound_pos_pos _ _ Hpos Hsign). right. nia.
    - pose proof (Z.rem_bound_pos_neg (Zsum ratings) _ Hpos ltac:(lia)). left. nia. }
  apply andb_true_iff. split; apply Z.leb_le; lia.
Qed.

(** ** [std_sort] and [truncate] *)

Section Sorting.
Context {A : Type} (comp : A → A → bool).

Lemma linear_insert_Permutation (val : A) (rprefix : list A) :
  linear_insert comp val rprefix ≡ₚ val :: rprefix.
Proof.
  induction rprefix as [| prev rest IH]; simpl; [done |].
  destruct (comp val prev); [| done].
  rewrite IH. apply perm_swap.
Qed.

Lemma insert_step_Permutation (rprefix : list A) (val : A) :
  insert_step comp rprefix val ≡ₚ val :: rprefix.
Proof.
  unfold insert_step. destruct (last rprefix) as [first |] eqn:Hlast.
  - destruct (comp val first).
    + symmetry. apply Permutation_cons_append.
    + apply linear_insert_Permutation.
  - apply last_None in Hlast. by subst.
Qed.

Lemma insertion_loop_Permutation (l rprefix : list A) :
  fold_left (insert_step comp) l rprefix ≡ₚ l ++ rprefix.
Proof.
  revert rprefix. induction l as [| x l IH]; intros rprefix; simpl; [done |].
  rewrite IH, insert_step_Permutation. by rewrite Permutation_middle.
Qed.

Lemma std_sort_Permutation (l : list A) : std_sort comp l ≡ₚ l.
Proof.
  unfold std_sort. rewrite <- Permutation_rev, insertion_loop_Permutation.
  by rewrite app_nil_r.
Qed.

Lemma linear_insert_HdRel (val prev : A) (rest : list A) :
  comp val prev = true →
  HdRel (flip (in_order comp)) prev rest →
  HdRel (flip (in_order comp)) prev (linear_insert comp val rest).
Proof.
  intros Hcomp Hrest. destruct rest as [| p rest]; simpl.
  - constructor. by right.
  - destruct (comp val p); [| constructor; by right].
    constructor. by inversion Hrest.
Qed.

Lemma linear_insert_Sorted (val : A) (rprefix : list A) :
  Sorted (flip (in_order comp)) rprefix →
  Sorted (flip (in_order comp)) (linear_insert comp val rprefix).
Proof.
  induction 1 as [| prev rest Hrest IH Hhd]; simpl.
  - repeat constructor.
  - destruct (comp val prev) eqn:Hcomp.
    + constructor; [done | by apply linear_insert_HdRel].
    + constructor; [by constructor |]. constructor. by left.
Qed.

Lemma Sorted_snoc (R : A → A → Prop) (l : list A) (v : A) :
  Sorted R l → (∀ x, last l = Some x → R x v) → Sorted R (l ++ [v]).
Proof.
  induction 1 as [| a l Hl IH Hhd]; intros Hlast; simpl.
  - repeat constructor.
  - constructor.
    + apply IH. intros x Hx. apply Hlast.
      destruct l; [done | exact Hx].
    + destruct l as [| b l]; simpl.
      * constructor. by apply Hlast.
      * constructor. by inversion Hhd.
Qed.

Lemma insert_step_Sorted (rprefix : list A) (val : A) :
  Sorted (flip (in_order comp)) rprefix →
  Sorted (flip (in_order comp)) (insert_step comp rprefix val).
Proof.
  intros Hsorted. unfold insert_step.
  destruct (last rprefix) as [first |] eqn:Hlast.
  - destruct (comp val first) eqn:Hcomp.
    + apply Sorted_snoc; [done |]. intros x Hx.
      assert (x = first) as -> by congruence. by right.
    + by apply linear_insert_Sorted.
  - repeat constructor.
Qed.

Lemma insertion_loop_Sorted (l rprefix : list A) :
  Sorted (flip (in_order comp)) rprefix →
  Sorted (flip (in_order comp)) (fold_left (insert_step comp) l rprefix).
Proof.
  revert rprefix. induction l as [| x l IH]; intros rprefix Hsorted; simpl; [done |].
  by apply IH, insert_step_Sorted.
Qed.

Lemma Sorted_rev (R : A → A → Prop) (l : list A) :
  Sorted (flip R) l → Sorted R (rev l).
Proof.
  induction 1 as [| a l Hl IH Hhd]; simpl; [constructor |].
  apply Sorted_snoc; [done |]. intros x Hx.
  destruct l as [| b l]; [done |].
  simpl in Hx. rewrite last_snoc in Hx. injection Hx as <-.
  by inversion Hhd.
Qed.

(** No neighbours of the output of [std_sort] are out of order, whatever
    the comparator. *)
Lemma std_sort_Sorted (l : list A) : Sorted (in_order comp) (std_sort comp l).
Proof. apply Sorted_rev, insertion_loop_Sorted. constructor. Qed.

Lemma Sorted_take (R : A → A → Prop) (n : nat) (l : list A) :
  Sorted R l → Sorted R (take n l).
Proof.
  intros Hsorted. revert n. induction Hsorted as [| a l Hl IH Hhd]; intros [| n]; simpl;
    try constructor.
  - apply IH.
  - destruct Hhd; destruct n; simpl; by constructor.
Qed.

Lemma truncate_Sorted (R : A → A → Prop) (n : nat) (l : list A) :
  Sorted R l → Sorted R (truncate n l).
Proof. unfold truncate. destruct (n <? length l)%nat; [apply Sorted_take | done]. Qed.

Lemma truncate_length (n : nat) (l : list A) : (length (truncate n l) ≤ n)%nat.
Proof.
  unfold truncate. destruct (Nat.ltb_spec n (length l)).
  - rewrite length_take. lia.
  - done.
Qed.

Lemma truncate_subset (n : nat) (l : list A) (x : A) : x ∈ truncate n l → x ∈ l.
Proof.
  unfold truncate. destruct (n <? length l)%nat; [| done].
  apply subseteq_take.
Qed.

Lemma Sorted_neighbours (R : A → A → Prop) (l : list A) (i : nat) (x y : A) :
  Sorted R l → l !! i = Some x → l !! S i = Some y → R x y.
Proof.
  intros Hsorted. revert i. induction Hsorted as [| a l Hl IH Hhd]; intros i; [done |].
  destruct i as [| i]; simpl.
  - intros [= ->] Hy. destruct Hhd as [| b l Hab]; [done |].
    simpl in Hy. by injection Hy as <-.
  - apply IH.
Qed.

End Sorting.

(** ** Iteration in key order *)

Lemma in_key_order_Permutation {K V : Type} `{Countable K}
    (le : relation K) `{∀ x y, Decision (le x y)} (m : gmap K V) :
  in_key_order le m ≡ₚ map_to_list m.
Proof. unfold in_key_order. apply merge_sort_Permutation. Qed.

Lemma elem_of_in_key_order {K V : Type} `{Countable K}
    (le : relation K) `{∀ x y, Decision (le x y)} (m : gmap K V) (k : K) (v : V) :
  (k, v) ∈ in_key_order le m ↔ m !! k = Some v.
Proof. rewrite in_key_order_Permutation. apply elem_of_map_to_list. Qed.

Lemma elem_of_keys_in_order {K V : Type} `{Countable K}
    (le : relation K) `{∀ x y, Decision (le x y)} (m : gmap K V) (k : K) :
  k ∈ map fst (in_key_order le m) ↔ is_Some (m !! k).
Proof.
  rewrite list_elem_of_In, in_map_iff. split.
  - intros ([k' v] & <- & Hin). apply list_elem_of_In, elem_of_in_key_order in Hin.
    by exists v.
  - intros [v Hv]. exists (k, v). split; [done |].
    by apply list_elem_of_In, elem_of_in_key_order.
Qed.

Lemma by_word_empty : by_word (∅ : gmap string Q) = [].
Proof. unfold by_word, in_key_order. by rewrite map_to_list_empty. Qed.

Lemma fold_left_over_map {A B C : Type} (f : A → B → A) (g : C → B) (l : list C) (a : A) :
  fold_left f (map g l) a = fold_left (λ a x, f a (g x)) l a.
Proof. revert a. induction l as [| x l IH]; intros a; simpl; [done | apply IH]. Qed.

(** ** Sums of frequencies *)

Lemma Qsum_Permutation (l1 l2 : list Q) : l1 ≡ₚ l2 → (Qsum l1 == Qsum l2)%Q.
Proof.
  induction 1 as [| x l1 l2 _ IH | x y l | l1 l2 l3 _ IH1 _ IH2]; simpl.
  - reflexivity.
  - by rewrite IH.
  - ring.
  - by rewrite IH1.
Qed.

Lemma Qsum_values_insert (m : gmap string Q) (word : string) (x : Q) :
  (Qsum (values (<[word := x]> m))
   == Qsum (values m) - default 0 (m !! word) + x)%Q.
Proof.
  unfold values.
  destruct (m !! word) as [y |] eqn:Hword; simpl.
  - rewrite <- insert_delete_eq.
    rewrite (Qsum_Permutation _ (map snd ((word, x) :: map_to_list (delete word m)))).
    2: { apply Permutation_map, map_to_list_insert, lookup_delete_eq. }
    rewrite (Qsum_Permutation (map snd (map_to_list m))
               (map snd ((word, y) :: map_to_list (delete word m)))).
    2: { apply Permutation_map. symmetry. by apply map_to_list_delete. }
    simpl. ring.
  - rewrite (Qsum_Permutation _ (map snd ((word, x) :: map_to_list m))).
    2: { by apply Permutation_map, map_to_list_insert. }
    simpl. ring.
Qed.

Lemma values_empty : values (∅ : gmap string Q) = [].
Proof. unfold values. by rewrite map_to_list_empty. Qed.

Lemma frequency_sum_values (s : SearchServer) (document_id : Z) :
  (frequency_sum s document_id == Qsum (values (GetWordFrequencies s document_id)))%Q.
Proof.
  unfold frequency_sum, values, by_word.
  apply Qsum_Permutation, Permutation_map, in_key_order_Permutation.
Qed.

(** ** Tokens *)

(** A word is invalid exactly when it holds a character below 0x20. *)
Lemma IsValidWord_false (word : string) :
  IsValidWord word = false
  ↔ ∃ c, c ∈ list_ascii_of_string word ∧ (nat_of_ascii c < 32)%nat.
Proof.
  unfold IsValidWord. induction word as [| c word IH]; simpl.
  - split; [discriminate | intros (c & Hc & _); inversion Hc].
  - rewrite andb_false_iff, negb_false_iff, IH. unfold is_control. split.
    + intros [Hc%Nat.ltb_lt | (c' & Hin & Hc')].
      * exists c. split; [by left | done].
      * exists c'. split; [by right | done].
    + intros (c' & [-> | Hin]%elem_of_cons & Hc').
      * left. by apply Nat.ltb_lt.
      * right. by exists c'.
Qed.

Lemma keep_word_valid (s : SearchServer) (words : list string) (word : string) :
  IsValidWord word = true → ∃ words', keep_word s words word = Ok words'.
Proof.
  intros Hvalid. unfold keep_word. rewrite Hvalid. simpl.
  destruct (IsStopWord s word); simpl; eauto.
Qed.

Lemma keep_word_invalid (s : SearchServer) (words : list string) (word : string) :
  IsValidWord word = false → ∃ e, keep_word s words word = Throw e.
Proof. intros Hvalid. unfold keep_word. rewrite Hvalid. simpl. eauto. Qed.

Lemma keep_words_throws (s : SearchServer) (tokens acc : list string) :
  threw (for_each (keep_word s) tokens acc)
  ↔ ∃ word, word ∈ tokens ∧ IsValidWord word = false.
Proof.
  revert acc. induction tokens as [| t tokens IH]; intros acc; simpl.
  - split; [intros [] | intros (w & Hw & _); inversion Hw].
  - destruct (IsValidWord t) eqn:Hvalid.
    + destruct (keep_word_valid s acc t Hvalid) as [acc' ->]. simpl.
      rewrite IH. split.
      * intros (w & Hw & Hbad). exists w. split; [by right | done].
      * intros (w & Hw & Hbad). apply elem_of_cons in Hw as [-> | Hw]; [congruence |].
        by exists w.
    + destruct (keep_word_invalid s acc t Hvalid) as [e ->]. simpl.
      split; [| done]. intros _. exists t. split; [by left | done].
Qed.

Lemma keep_words_defined (s : SearchServer) (tokens acc : list string) :
  for_each (keep_word s) tokens acc ≠ Undefined.
Proof.
  revert acc. induction tokens as [| t tokens IH]; intros acc; simpl; [discriminate |].
  destruct (IsValidWord t) eqn:Hvalid.
  - destruct (keep_word_valid s acc t Hvalid) as [acc' ->]. simpl. apply IH.
  - destruct (keep_word_invalid s acc t Hvalid) as [e ->]. simpl. discriminate.
Qed.

(** ** The loop of [AddDocument] *)

Lemma add_words_frame (document_id : Z) (inv_word_count : Q) (words : list string)
    (s : SearchServer) :
  let s' := fold_left (add_word document_id inv_word_count) words s in
  stop_words_ s' = stop_words_ s
  ∧ documents_ s' = documents_ s
  ∧ document_ids_ s' = document_ids_ s.
Proof.
  revert s. induction words as [| w words IH]; intros s; simpl; [done |].
  destruct (IH (add_word document_id inv_word_count s w)) as (-> & -> & ->). done.
Qed.

Lemma freq_by_word_add_word (document_id : Z) (inv_word_count : Q) (s : SearchServer)
    (word0 word : string) (d : Z) :
  freq_by_word (add_word document_id inv_word_count s word0) word d
  = if decide (word = word0 ∧ d = document_id)
    then Some (default 0%Q (freq_by_word s word0 document_id) + inv_word_count)%Q
    else freq_by_word s word d.
Proof.
  unfold freq_by_word, add_word. simpl.
  destruct (decide (word = word0)) as [-> | Hword].
  - rewrite lookup_insert_eq. simpl.
    destruct (decide (d = document_id)) as [-> | Hd].
    + rewrite lookup_insert_eq, decide_True by done.
      destruct (word_to_document_freqs_ s !! word0); simpl; by rewrite ?lookup_empty.
    + rewrite lookup_insert_ne, decide_False by (try intros [? ?]; congruence).
      destruct (word_to_document_freqs_ s !! word0); simpl; by rewrite ?lookup_empty.
  - rewrite lookup_insert_ne, decide_False by (try intros [? ?]; congruence). done.
Qed.

Lemma freq_by_document_add_word (document_id : Z) (inv_word_count : Q) (s : SearchServer)
    (word0 word : string) (d : Z) :
  freq_by_document (add_word document_id inv_word_count s word0) d word
  = if decide (word = word0 ∧ d = document_id)
    then Some (default 0%Q (freq_by_document s document_id word0) + inv_word_count)%Q
    else freq_by_document s d word.
Proof.
  unfold freq_by_document, add_word. simpl.
  destruct (decide (d = document_id)) as [-> | Hd].
  - rewrite lookup_insert_eq. simpl.
    destruct (decide (word = word0)) as [-> | Hword].
    + rewrite lookup_insert_eq, decide_True by done.
      destruct (document_to_word_freqs_ s !! document_id); simpl; by rewrite ?lookup_empty.
    + rewrite lookup_insert_ne, decide_False by (try intros [? ?]; congruence).
      destruct (document_to_word_freqs_ s !! document_id); simpl; by rewrite ?lookup_empty.
  - rewrite lookup_insert_ne, decide_False by (try intros [? ?]; congruence). done.
Qed.

Lemma views_agree_add_words (document_id : Z) (inv_word_count : Q) (words : list string)
    (s : SearchServer) :
  views_agree_on s →
  views_agree_on (fold_left (add_word document_id inv_word_count) words s).
Proof.
  revert s. induction words as [| w words IH]; intros s Hs; simpl; [done |].
  apply IH. intros word d.
  rewrite freq_by_word_add_word, freq_by_document_add_word.
  case_decide; [by rewrite Hs | apply Hs].
Qed.

Lemma add_words_other_document (document_id : Z) (inv_word_count : Q)
    (words : list string) (s : SearchServer) (d : Z) :
  d ≠ document_id →
  document_to_word_freqs_ (fold_left (add_word document_id inv_word_count) words s) !! d
  = document_to_word_freqs_ s !! d.
Proof.
  intros Hd. revert s. induction words as [| w words IH]; intros s; simpl; [done |].
  rewrite IH. unfold add_word. simpl. by rewrite lookup_insert_ne.
Qed.

Lemma GetWordFrequencies_add_word (document_id : Z) (inv_word_count : Q)
    (s : SearchServer) (word : string) :
  GetWordFrequencies (add_word document_id inv_word_count s word) document_id
  = <[word := (default 0 (GetWordFrequencies s document_id !! word) + inv_word_count)%Q]>
      (GetWordFrequencies s document_id).
Proof.
  unfold GetWordFrequencies, add_word. simpl. rewrite lookup_insert_eq.
  by destruct (document_to_word_freqs_ s !! document_id).
Qed.

Lemma add_words_sum (document_id : Z) (inv_word_count : Q) (words : list string)
    (s : SearchServer) :
  (Qsum (values (GetWordFrequencies
                   (fold_left (add_word document_id inv_word_count) words s) document_id))
   == Qsum (values (GetWordFrequencies s document_id))
      + inject_Z (Z.of_nat (length words)) * inv_word_count)%Q.
Proof.
  revert s. induction words as [| w words IH]; intros s.
  - simpl. ring.
  - cbn [fold_left length]. rewrite IH, GetWordFrequencies_add_word, Qsum_values_insert.
    rewrite Nat2Z.inj_succ, <- Z.add_1_r, inject_Z_plus. ring.
Qed.

Lemma add_words_entry (document_id : Z) (inv_word_count : Q) (words : list string)
    (s : SearchServer) :
  words ≠ [] →
  ∃ m, document_to_word_freqs_
         (fold_left (add_word document_id inv_word_count) words s) !! document_id = Some m
       ∧ m ≠ ∅.
Proof.
  revert s. induction words as [| w words IH]; intros s Hwords; [done |].
  cbn [fold_left].
  destruct words as [| w' words].
  - simpl. rewrite lookup_insert_eq. eexists. split; [done |]. apply insert_non_empty.
  - apply IH. done.
Qed.

(** ** [RemoveDocument] and the invariant *)

Lemma elem_of_ids_insert (d document_id : Z) (ids : gset Z) :
  d ∈ {[document_id]} ∪ ids ↔ d = document_id ∨ d ∈ ids.
Proof. set_solver. Qed.

Lemma elem_of_ids_erase (d document_id : Z) (ids : gset Z) :
  d ∈ ids ∖ {[document_id]} ↔ d ∈ ids ∧ d ≠ document_id.
Proof. set_solver. Qed.

Lemma erase_postings_lookup (document_id : Z) (words : list string)
    (postings : gmap string (gmap Z Q)) (word : string) (d : Z) :
  fold_left (erase_posting document_id) words postings !! word ≫= (λ docs, docs !! d)
  = if decide (d = document_id ∧ word ∈ words) then None
    else postings !! word ≫= (λ docs, docs !! d).
Proof.
  revert postings. induction words as [| w words IH]; intros postings.
  - simpl. rewrite decide_False; [done |]. intros [_ Hin]. inversion Hin.
  - cbn [fold_left]. rewrite IH.
    destruct (decide (d = document_id ∧ word ∈ words)) as [[-> Hin] | Hno].
    + rewrite decide_True; [done |]. split; [done | by right].
    + unfold erase_posting.
      destruct (decide (word = w)) as [-> | Hword].
      * rewrite lookup_insert_eq. simpl.
        destruct (decide (d = document_id)) as [-> | Hd].
        -- rewrite lookup_delete_eq, decide_True; [done |]. split; [done | by left].
        -- rewrite lookup_delete_ne by done.
           rewrite decide_False by (intros [? _]; done).
           destruct (postings !! w); simpl; by rewrite ?lookup_empty.
      * rewrite lookup_insert_ne by done.
        rewrite decide_False; [done |].
        intros [-> [? | ?]%elem_of_cons]; [done | by apply Hno].
Qed.

Lemma erase_posting_comm (document_id : Z) (postings : gmap string (gmap Z Q))
    (word1 word2 : string) :
  erase_posting document_id (erase_posting document_id postings word1) word2
  = erase_posting document_id (erase_posting document_id postings word2) word1.
Proof.
  destruct (decide (word1 = word2)) as [-> | Hne]; [done |].
  unfold erase_posting.
  rewrite !lookup_insert_ne by done. by apply insert_insert_ne.
Qed.

Lemma erase_postings_Permutation (document_id : Z) (order1 order2 : list string)
    (postings : gmap string (gmap Z Q)) :
  order1 ≡ₚ order2 →
  fold_left (erase_posting document_id) order1 postings
  = fold_left (erase_posting document_id) order2 postings.
Proof.
  intros Horder. revert postings.
  induction Horder as [| w l1 l2 _ IH | w1 w2 l | l1 l2 l3 _ IH1 _ IH2];
    intros postings; simpl.
  - done.
  - apply IH.
  - by rewrite erase_posting_comm.
  - by rewrite IH1.
Qed.

(** X1.  In whatever order the erasures of the parallel overload take effect, it
    leaves the server the sequential overload leaves. *)
Lemma RemoveDocument_parallel_policy_in_any_order (order : list string)
    (s : SearchServer) (document_id : Z) :
  order ≡ₚ copied_keys s document_id →
  RemoveDocument_parallel_policy_in order s document_id = RemoveDocument s document_id.
Proof.
  intros Horder. unfold RemoveDocument_parallel_policy_in, RemoveDocument.
  f_equal. rewrite (erase_postings_Permutation _ _ _ _ Horder).
  apply fold_left_over_map.
Qed.

Lemma RemoveDocument_parallel_policy_eq (s : SearchServer) (document_id : Z) :
  RemoveDocument_parallel_policy s document_id = RemoveDocument s document_id.
Proof.
  unfold RemoveDocument_parallel_policy, RemoveDocument_parallel_policy_in, RemoveDocument.
  f_equal. apply fold_left_over_map.
Qed.

Lemma GetWordFrequencies_lookup (s : SearchServer) (document_id : Z) (word : string) :
  GetWordFrequencies s document_id !! word = freq_by_document s document_id word.
Proof.
  unfold GetWordFrequencies, freq_by_document.
  destruct (document_to_word_freqs_ s !! document_id); simpl; by rewrite ?lookup_empty.
Qed.

(** X2.  After [RemoveDocument(id)], [GetWordFrequencies(id)] is the empty map. *)
Lemma GetWordFrequencies_RemoveDocument (s : SearchServer) (document_id : Z) :
  GetWordFrequencies (RemoveDocument s document_id) document_id = ∅.
Proof.
  unfold GetWordFrequencies, RemoveDocument. simpl. by rewrite lookup_delete_eq.
Qed.

Lemma freq_by_word_RemoveDocument (s : SearchServer) (document_id : Z)
    (word : string) (d : Z) :
  freq_by_word (RemoveDocument s document_id) word d
  = if decide (d = document_id ∧ is_Some (freq_by_document s document_id word))
    then None else freq_by_word s word d.
Proof.
  rewrite <- RemoveDocument_parallel_policy_eq.
  unfold freq_by_word, RemoveDocument_parallel_policy, RemoveDocument_parallel_policy_in,
    copied_keys.
  simpl. rewrite erase_postings_lookup.
  unfold by_word.
  destruct (decide (d = document_id ∧ _)) as [[-> Hin] | Hno].
  - apply elem_of_keys_in_order in Hin. rewrite GetWordFrequencies_lookup in Hin.
    by rewrite decide_True.
  - rewrite decide_False; [done |]. intros [-> Hin]. apply Hno. split; [done |].
    apply elem_of_keys_in_order. by rewrite GetWordFrequencies_lookup.
Qed.

Lemma freq_by_document_RemoveDocument (s : SearchServer) (document_id : Z)
    (word : string) (d : Z) :
  freq_by_document (RemoveDocument s document_id) d word
  = if decide (d = document_id) then None else freq_by_document s d word.
Proof.
  unfold freq_by_document, RemoveDocument. simpl.
  case_decide as Hd; [subst; by rewrite lookup_delete_eq | by rewrite lookup_delete_ne].
Qed.

Lemma fresh_consistent (stop_words : gset string) : consistent (fresh stop_words).
Proof.
  split; unfold fresh; simpl.
  - intros word d. unfold freq_by_word, freq_by_document. simpl.
    by rewrite !lookup_empty.
  - intros d [? Hd]. by rewrite lookup_empty in Hd.
  - intros d. rewrite lookup_empty. split; [by intros ?%not_elem_of_empty | by intros [? ?]].
  - intros d words Hd. by rewrite lookup_empty in Hd.
Qed.

Lemma RemoveDocument_consistent (s : SearchServer) (document_id : Z) :
  consistent s → consistent (RemoveDocument s document_id).
Proof.
  intros [Hviews Hindexed Hids Hsum]. split.
  - intros word d.
    rewrite freq_by_word_RemoveDocument, freq_by_document_RemoveDocument.
    destruct (decide (d = document_id)) as [-> | Hd].
    + case_decide as Hin; [done |]. rewrite Hviews.
      destruct (freq_by_document s document_id word) eqn:Hf; [| done].
      exfalso. apply Hin. split; [done | by eexists].
    + rewrite decide_False by (intros [? _]; done). apply Hviews.
  - intros d. unfold RemoveDocument. simpl.
    destruct (decide (d = document_id)) as [-> | Hd].
    + rewrite lookup_delete_eq. by intros [? ?].
    + rewrite !lookup_delete_ne by done. apply Hindexed.
  - intros d. unfold RemoveDocument. simpl.
    destruct (decide (d = document_id)) as [-> | Hd].
    + rewrite lookup_delete_eq, elem_of_ids_erase. split; [by intros [_ ?] | by intros [? ?]].
    + rewrite lookup_delete_ne by done. rewrite <- Hids, elem_of_ids_erase.
      split; [by intros [? _] | done].
  - intros d words. unfold RemoveDocument. simpl.
    destruct (decide (d = document_id)) as [-> | Hd].
    + by rewrite lookup_delete_eq.
    + rewrite lookup_delete_ne by done. apply Hsum.
Qed.

(** ** The loops of [FindAllDocuments], the comparator, [word_in_document] *)

Lemma erase_loop_lookup {V : Type} (postings : list (Z * V)) (m : gmap Z Q) (d : Z) :
  fold_left (λ m posting, delete posting.1 m) postings m !! d
  = if decide (d ∈ map fst postings) then None else m !! d.
Proof.
  revert m. induction postings as [| [k v] postings IH]; intros m.
  - case_decide as Hin; [by apply elem_of_nil in Hin | done].
  - cbn [fold_left map fst]. rewrite IH.
    destruct (decide (d ∈ map fst postings)) as [Hin | Hout].
    + rewrite decide_True; [done | by right].
    + destruct (decide (d = k)) as [-> | Hne].
      * rewrite lookup_delete_eq, decide_True; [done | by left].
      * rewrite lookup_delete_ne by done.
        rewrite decide_False; [done |]. by intros [? | ?]%elem_of_cons.
Qed.

Lemma erase_matches_keeps_absent (s : SearchServer) (m : gmap Z Q) (word : string) (d : Z) :
  m !! d = None → erase_matches s m word !! d = None.
Proof.
  intros Hd. unfold erase_matches.
  destruct (word_to_document_freqs_ s !! word) as [docs |]; [| done].
  rewrite erase_loop_lookup. by case_decide.
Qed.

Lemma erase_matches_erases (s : SearchServer) (m : gmap Z Q) (word : string) (d : Z) :
  is_Some (freq_by_word s word d) → erase_matches s m word !! d = None.
Proof.
  unfold freq_by_word, erase_matches.
  destruct (word_to_document_freqs_ s !! word) as [docs |]; simpl; [| by intros [? ?]].
  intros Hd. rewrite erase_loop_lookup, decide_True; [done |].
  unfold by_id. by apply elem_of_keys_in_order.
Qed.

Lemma minus_loop_erases (s : SearchServer) (minus : list string) (m : gmap Z Q)
    (word : string) (d : Z) :
  word ∈ minus → is_Some (freq_by_word s word d) →
  fold_left (erase_matches s) minus m !! d = None.
Proof.
  assert (∀ minus m, m !! d = None → fold_left (erase_matches s) minus m !! d = None)
    as Hkeep.
  { clear. intros minus. induction minus as [| w minus IH]; intros m Hm; simpl; [done |].
    by apply IH, erase_matches_keeps_absent. }
  intros Hin Hd. revert m.
  induction minus as [| w minus IH]; intros m; [by apply elem_of_nil in Hin |].
  simpl. apply elem_of_cons in Hin as [<- | Hin].
  - by apply Hkeep, erase_matches_erases.
  - by apply IH.
Qed.

Lemma emit_loop_ids (s : SearchServer) (entries : list (Z * Q))
    (matched hits : list Document) (hit : Document) :
  for_each (emit s) entries matched = Ok hits → hit ∈ hits →
  hit ∈ matched ∨ id hit ∈ map fst entries.
Proof.
  revert matched. induction entries as [| [k v] entries IH]; intros matched; simpl.
  - intros [= <-]. by left.
  - intros (matched' & Hemit & Hrest)%bind_Ok Hhit.
    unfold emit in Hemit. apply bind_Ok in Hemit as (data & _ & [= <-]).
    destruct (IH _ Hrest Hhit) as [Hin | Hin]; [| right; by right].
    apply elem_of_app in Hin as [Hin | ->%list_elem_of_singleton]; [by left |].
    right. by left.
Qed.

Lemma Qltb_lt (a b : Q) : Qltb a b = true ↔ (a < b)%Q.
Proof.
  unfold Qltb. rewrite negb_true_iff, <- not_true_iff_false, Qle_bool_iff.
  split; [apply Qnot_le_lt | apply Qlt_not_le].
Qed.

Lemma Qltb_ge (a b : Q) : Qltb a b = false ↔ (b <= a)%Q.
Proof.
  unfold Qltb. by rewrite negb_false_iff, Qle_bool_iff.
Qed.

Lemma by_relevance_in_order (earlier later : Document) :
  in_order by_relevance earlier later →
  (relevance later < relevance earlier)%Q
  ∨ ((Qabs (relevance earlier - relevance later) < EPSILON)%Q
     ∧ rating later ≤ rating earlier).
Proof.
  unfold in_order, by_relevance. intros Horder.
  destruct (Qlt_le_dec (relevance later) (relevance earlier)) as [Hlt | Hle];
    [by left | right].
  destruct Horder as [Hno | Hyes].
  - apply orb_false_iff in Hno as [Hge%Qltb_ge Htie].
    assert (Qabs (relevance later - relevance earlier) < EPSILON)%Q as Hclose.
    { apply Qabs_Qlt_condition. unfold EPSILON. split; lra. }
    split.
    + apply Qabs_Qlt_condition. unfold EPSILON. split; lra.
    + apply Qltb_lt in Hclose. rewrite Hclose in Htie. simpl in Htie. lia.
  - apply orb_true_iff in Hyes as [Hgt%Qltb_lt | [Hclose%Qltb_lt Hrating]%andb_true_iff].
    + lra.
    + split; [done | lia].
Qed.

Lemma word_in_document_spec (s : SearchServer) (d : Z) (word : string) :
  word_in_document s d word = true ↔ is_Some (freq_by_word s word d).
Proof.
  unfold word_in_document, freq_by_word.
  destruct (word_to_document_freqs_ s !! word) as [docs |]; simpl.
  - apply bool_decide_eq_true.
  - split; [done | by intros [? ?]].
Qed.

(** ** The index, over any tokeniser *)

Section Index.

Context (SplitIntoWords : string → list string).

Set Default Proof Using "Type".

Lemma SplitIntoWordsNoStop_throws (s : SearchServer) (text : string) :
  threw (SplitIntoWordsNoStop SplitIntoWords s text)
  ↔ ∃ word, word ∈ SplitIntoWords text ∧ IsValidWord word = false.
Proof. apply keep_words_throws. Qed.

Lemma SplitIntoWordsNoStop_defined (s : SearchServer) (text : string) :
  SplitIntoWordsNoStop SplitIntoWords s text ≠ Undefined.
Proof. apply keep_words_defined. Qed.

Lemma AddDocument_throws (s : SearchServer) (document_id : Z) (document : string)
    (status : DocumentStatus) (ratings : list Z) :
  threw (AddDocument SplitIntoWords s document_id document status ratings).2
  ↔ document_id < 0
    ∨ is_Some (documents_ s !! document_id)
    ∨ threw (SplitIntoWordsNoStop SplitIntoWords s document).
Proof.
  unfold AddDocument.
  destruct (Z.ltb_spec document_id 0) as [Hneg | Hnonneg]; simpl.
  { split; [intros _; by left | done]. }
  destruct (decide (is_Some (documents_ s !! document_id))) as [Hdup | Hnew].
  { rewrite bool_decide_eq_true_2 by done. simpl.
    split; [intros _; right; by left | done]. }
  rewrite bool_decide_eq_false_2 by done.
  destruct (SplitIntoWordsNoStop SplitIntoWords s document) as [words | e |]; simpl.
  - pose proof (ComputeAverageRating_no_throw ratings) as Hrating.
    destruct (ComputeAverageRating ratings) as [rating | e |]; simpl in *.
    + split; [done |]. intros [? | [? | []]]; [lia | done].
    + done.
    + split; [done |]. intros [? | [? | []]]; [lia | done].
  - split; [| done]. intros _. right; by right.
  - split; [done |]. intros [? | [? | []]]; [lia | done].
Qed.

Lemma AddDocument_throw_leaves_server (s : SearchServer) (document_id : Z)
    (document : string) (status : DocumentStatus) (ratings : list Z) :
  threw (AddDocument SplitIntoWords s document_id document status ratings).2 →
  (AddDocument SplitIntoWords s document_id document status ratings).1 = s.
Proof.
  unfold AddDocument.
  destruct ((document_id <? 0) || bool_decide (is_Some (documents_ s !! document_id)));
    [done |].
  destruct (SplitIntoWordsNoStop SplitIntoWords s document) as [words | e |]; simpl;
    [| done..].
  pose proof (ComputeAverageRating_no_throw ratings) as Hrating.
  by destruct (ComputeAverageRating ratings) as [rating | e |].
Qed.


(** What a returning call has done. *)
Lemma AddDocument_Ok (s s' : SearchServer) (document_id : Z) (document : string)
    (status : DocumentStatus) (ratings : list Z) :
  AddDocument SplitIntoWords s document_id document status ratings = (s', Ok ()) →
  ∃ words rating,
    0 ≤ document_id
    ∧ documents_ s !! document_id = None
    ∧ SplitIntoWordsNoStop SplitIntoWords s document = Ok words
    ∧ ComputeAverageRating ratings = Ok rating
    ∧ let s1 := fold_left
                  (add_word document_id (1 / inject_Z (Z.of_nat (length words)))%Q)
                  words s in
      s' = mkSearchServer (stop_words_ s1) (word_to_document_freqs_ s1)
             (document_to_word_freqs_ s1)
             (<[document_id := DocumentData.make rating status]> (documents_ s))
             ({[document_id]} ∪ document_ids_ s).
Proof.
  unfold AddDocument.
  destruct (Z.ltb_spec document_id 0) as [Hneg | Hnonneg]; simpl; [discriminate |].
  destruct (decide (is_Some (documents_ s !! document_id))) as [Hdup | Hnew].
  { rewrite bool_decide_eq_true_2 by done. discriminate. }
  rewrite bool_decide_eq_false_2 by done.
  apply eq_None_not_Some in Hnew.
  destruct (SplitIntoWordsNoStop SplitIntoWords s document) as [words | e |];
    [| discriminate..].
  destruct (ComputeAverageRating ratings) as [rating | e |]; [| discriminate..].
  intros [= <-]. exists words, rating.
  destruct (add_words_frame document_id
              (1 / inject_Z (Z.of_nat (length words)))%Q words s) as (_ & Hdocs & Hids).
  repeat split; try done.
  simpl. rewrite Hdocs, Hids. unfold emplace. by rewrite Hnew.
Qed.

(** X7.  A call with a fresh non-negative id, valid tokens and ratings that
    [ComputeAverageRating] can average returns. *)
Lemma AddDocument_returns (s : SearchServer) (document_id : Z) (document : string)
    (status : DocumentStatus) (ratings : list Z) (rating : Z) :
  0 ≤ document_id →
  documents_ s !! document_id = None →
  (∀ word, word ∈ SplitIntoWords document → IsValidWord word = true) →
  ComputeAverageRating ratings = Ok rating →
  (AddDocument SplitIntoWords s document_id document status ratings).2 = Ok ().
Proof.
  intros Hid Hnew Hvalid Hrating. unfold AddDocument.
  destruct (Z.ltb_spec document_id 0) as [? | _]; [lia |].
  rewrite bool_decide_eq_false_2 by (rewrite Hnew; by intros [? ?]).
  simpl.
  pose proof (SplitIntoWordsNoStop_throws s document) as Hthrows.
  pose proof (SplitIntoWordsNoStop_defined s document) as Hdefined.
  destruct (SplitIntoWordsNoStop SplitIntoWords s document) as [words | e |].
  - by rewrite Hrating.
  - destruct Hthrows as [(word & Hin & Hbad) _]; [done |].
    rewrite Hvalid in Hbad by done. discriminate.
  - done.
Qed.


Lemma AddDocument_consistent (s s' : SearchServer) (document_id : Z) (document : string)
    (status : DocumentStatus) (ratings : list Z) :
  consistent s →
  AddDocument SplitIntoWords s document_id document status ratings = (s', Ok ()) →
  consistent s'.
Proof.
  intros [Hviews Hindexed Hids Hsum].
  intros (words & rating & _ & Hnew & _ & _ & ->)%AddDocument_Ok.
  set (inv_word_count := (1 / inject_Z (Z.of_nat (length words)))%Q).
  assert (document_to_word_freqs_ s !! document_id = None) as Hfirst.
  { apply eq_None_not_Some. intros Hsome%Hindexed. rewrite Hnew in Hsome.
    by destruct Hsome. }
  split; simpl.
  - by apply views_agree_add_words.
  - intros d Hd. destruct (decide (d = document_id)) as [-> | Hne].
    + rewrite lookup_insert_eq. by eexists.
    + rewrite lookup_insert_ne by done. apply Hindexed.
      by rewrite add_words_other_document in Hd.
  - intros d. destruct (decide (d = document_id)) as [-> | Hne].
    + rewrite lookup_insert_eq, elem_of_ids_insert. split; [by eexists | by left].
    + rewrite lookup_insert_ne by done. rewrite <- Hids, elem_of_ids_insert.
      split; [by intros [? | ?] | by right].
  - intros d m Hd. destruct (decide (d = document_id)) as [-> | Hne].
    + destruct words as [| w words]; [simpl in Hd; congruence |].
      destruct (add_words_entry document_id inv_word_count (w :: words) s)
        as (m' & Hm' & Hnonempty); [done |].
      assert (m' = m) as -> by congruence.
      split; [done |].
      pose proof (add_words_sum document_id inv_word_count (w :: words) s) as Htotal.
      unfold GetWordFrequencies in Htotal. rewrite Hm', Hfirst in Htotal.
      rewrite Htotal, values_empty. unfold inv_word_count. simpl Qsum.
      assert (¬ (inject_Z (Z.of_nat (length (w :: words))) == 0)%Q) as Hpos.
      { simpl length. rewrite Nat2Z.inj_succ. unfold Qeq. simpl. lia. }
      field. exact Hpos.
    + rewrite add_words_other_document in Hd by done. by apply Hsum in Hd.
Qed.

Lemma AddDocument_state_cases (s : SearchServer) (document_id : Z) (document : string)
    (status : DocumentStatus) (ratings : list Z) :
  match AddDocument SplitIntoWords s document_id document status ratings with
  | (s', Throw _) => s' = s
  | _ => True
  end.
Proof.
  pose proof (AddDocument_throw_leaves_server s document_id document status ratings)
    as Hsame.
  destruct (AddDocument SplitIntoWords s document_id document status ratings)
    as [s' [[] | e |]]; simpl in *; auto.
Qed.

Lemma run_consistent (ops : list operation) (s s' : SearchServer) :
  consistent s → run SplitIntoWords ops s = Some s' → consistent s'.
Proof.
  revert s. induction ops as [| op ops IH]; intros s Hs; simpl.
  - by intros [= <-].
  - destruct op as [d text status ratings | d | d | d].
    + pose proof (AddDocument_state_cases s d text status ratings) as Hthrow.
      destruct (AddDocument SplitIntoWords s d text status ratings)
        as [s1 [[] | e |]] eqn:Hcall; [| | discriminate].
      * apply IH. by eapply AddDocument_consistent.
      * subst s1. by apply IH.
    + apply IH. by apply RemoveDocument_consistent.
    + apply IH. by apply RemoveDocument_consistent.
    + apply IH. rewrite RemoveDocument_parallel_policy_eq.
      by apply RemoveDocument_consistent.
Qed.



(** A returning [AddDocument] gives the new document an entry in
    [document_to_word_freqs_] exactly when its text has a word that is
    neither invalid nor a stop word. *)
Lemma AddDocument_indexes_nonempty_text
    (stop_words : gset string) (ops : list operation) (s s' : SearchServer)
    (document_id : Z) (document : string) (status : DocumentStatus) (ratings : list Z) :
  run SplitIntoWords ops (fresh stop_words) = Some s →
  AddDocument SplitIntoWords s document_id document status ratings = (s', Ok ()) →
  GetWordFrequencies s' document_id = ∅
  ↔ SplitIntoWordsNoStop SplitIntoWords s document = Ok [].
Proof.
  intros Hrun (words & rating & _ & Hnew & Hwords & _ & ->)%AddDocument_Ok.
  apply run_consistent in Hrun; [| apply fresh_consistent].
  rewrite Hwords. unfold GetWordFrequencies. simpl.
  destruct words as [| w words].
  - simpl. split; [done | intros _].
    destruct (document_to_word_freqs_ s !! document_id) eqn:Hd; [| done].
    destruct (indexed_is_stored s Hrun document_id) as [? Hstored]; [by eexists |].
    congruence.
  - destruct (add_words_entry document_id
                (1 / inject_Z (Z.of_nat (length (w :: words))))%Q (w :: words) s)
      as (m & -> & Hm); [done |].
    split; [done | discriminate].
Qed.

(** C10. After any sequence of [AddDocument] and [RemoveDocument] calls on a
    new server, each overload of [RemoveDocument] called with an id that is
    not in [document_ids_] returns the server unchanged: both frequency
    maps, the document store and the id set are what they were.  None of the
    overloads has a throwing path. *)
Theorem RemoveDocument_of_absent_id_changes_nothing
    (stop_words : gset string) (ops : list operation) (s : SearchServer)
    (document_id : Z) :
  run SplitIntoWords ops (fresh stop_words) = Some s →
  document_id ∉ document_ids_ s →
  RemoveDocument s document_id = s
  ∧ RemoveDocument_sequenced_policy s document_id = s
  ∧ RemoveDocument_parallel_policy s document_id = s.
Proof.
  intros Hrun Habsent.
  apply run_consistent in Hrun; [| apply fresh_consistent].
  assert (documents_ s !! document_id = None) as Hstored.
  { apply eq_None_not_Some. by rewrite <- (ids_are_stored s Hrun). }
  assert (document_to_word_freqs_ s !! document_id = None) as Hindexed.
  { apply eq_None_not_Some. intros Hsome%(indexed_is_stored s Hrun).
    rewrite Hstored in Hsome. by destruct Hsome. }
  assert (RemoveDocument s document_id = s) as Hsame.
  { unfold RemoveDocument, GetWordFrequencies. rewrite Hindexed, by_word_empty.
    destruct s as [stop postings index store ids]; simpl in *. f_equal.
    - by apply delete_id.
    - by apply delete_id.
    - apply difference_disjoint_L. by apply disjoint_singleton_r. }
  unfold RemoveDocument_sequenced_policy.
  by rewrite RemoveDocument_parallel_policy_eq, Hsame.
Qed.


Lemma MatchDocument_parallel_policy_answers_for_the_stored_query
    (st : Statics) (s : SearchServer) (stored : Query) (raw_query : string) (d : Z) :
  MatchDocument_parallel_query st = Some stored → d ∈ document_ids_ s →
  MatchDocument_parallel_policy SplitIntoWords st s raw_query d
  = (st, match_with_parallel s stored d).
Proof.
  intros Hstored Hlive. unfold MatchDocument_parallel_policy.
  rewrite bool_decide_eq_false_2 by (by intros ?).
  rewrite Hstored. simpl. by destruct st; simpl in *; subst.
Qed.


End Index.

(** ** Ranking, over any tokeniser and any [log] *)

Section Ranking.

Context (SplitIntoWords : string → list string) (log : Q → Q).

Set Default Proof Using "Type".


Lemma FindAllDocuments_excludes_minus_matches (s : SearchServer) (query : Query)
    (document_predicate : DocumentPredicate) (hits : list Document)
    (word : string) (d : Z) :
  word ∈ minus_words query → is_Some (freq_by_word s word d) →
  FindAllDocuments log s query document_predicate = Ok hits →
  ∀ hit, hit ∈ hits → id hit ≠ d.
Proof.
  intros Hword Hd. unfold FindAllDocuments.
  intros (relevance & _ & Hemit)%bind_Ok hit Hhit Heq. subst d.
  destruct (emit_loop_ids _ _ _ _ _ Hemit Hhit) as [Hin | Hin].
  - by apply elem_of_nil in Hin.
  - unfold by_id in Hin. apply elem_of_keys_in_order in Hin as [? Hin].
    by rewrite (minus_loop_erases s _ _ word) in Hin.
Qed.


End Ranking.

(** ** The sharded map: which calls hold the lock while they touch a bucket *)

Lemma update_keeps_lock_discipline {Value : Type} (zero : Value) (f : Value → Value)
    (key : Z) (megamap_ megamap' : ConcurrentMap.buckets) (trace : list ConcurrentMap.event) :
  ConcurrentMap.update zero f key megamap_ = Ok (megamap', trace) →
  ConcurrentMap.lock_discipline ∅ trace = true.
Proof.
  unfold ConcurrentMap.update. case_bool_decide; [discriminate |].
  intros [= _ <-]. simpl. rewrite bool_decide_eq_true_2; [done | set_solver].
Qed.

Lemma BuildOrdinaryMap_from_keeps_lock_discipline {Value : Type} (bucket : nat)
    (megamap_ : ConcurrentMap.buckets) (total : gmap Z Value) (held : gset nat) :
  ConcurrentMap.lock_discipline held
    (ConcurrentMap.BuildOrdinaryMap_from bucket megamap_ total).2 = true.
Proof.
  revert bucket total held.
  induction megamap_ as [| item rest IH]; intros bucket total held; simpl; [done |].
  specialize (IH (S bucket) (total ∪ item)).
  destruct (ConcurrentMap.BuildOrdinaryMap_from (S bucket) rest (total ∪ item))
    as [total' trace]. simpl in *.
  rewrite bool_decide_eq_true_2 by set_solver. apply IH.
Qed.

Lemma BuildOrdinaryMap_keeps_lock_discipline {Value : Type}
    (megamap_ : ConcurrentMap.buckets (Value := Value)) :
  ConcurrentMap.lock_discipline ∅ (ConcurrentMap.BuildOrdinaryMap megamap_).2 = true.
Proof. apply BuildOrdinaryMap_from_keeps_lock_discipline. Qed.

(** [Erase] removes the key from every bucket that holds it. *)
Lemma Erase_from_erases {Value : Type} (bucket : nat) (key : Z)
    (megamap_ : ConcurrentMap.buckets (Value := Value)) :
  (ConcurrentMap.Erase_from bucket key megamap_).1 = map (delete key) megamap_.
Proof.
  revert bucket. induction megamap_ as [| item rest IH]; intros bucket; simpl; [done |].
  specialize (IH (S bucket)).
  destruct (ConcurrentMap.Erase_from (S bucket) key rest) as [rest' trace]. simpl in IH.
  case_bool_decide as Hkey; simpl; rewrite IH; [done |].
  f_equal. symmetry. apply delete_id. by apply eq_None_not_Some.
Qed.

(** X5.  Whatever the key and the buckets, the first thing [Erase] does is look
    the key up in bucket 0 with no lock held. *)
Lemma Erase_breaks_lock_discipline {Value : Type} (key : Z) (item : gmap Z Value)
    (rest : ConcurrentMap.buckets) :
  ConcurrentMap.lock_discipline ∅ (ConcurrentMap.Erase key (item :: rest)).2 = false.
Proof.
  unfold ConcurrentMap.Erase. simpl.
  destruct (ConcurrentMap.Erase_from 1 key rest) as [rest' trace].
  case_bool_decide; simpl; rewrite bool_decide_eq_false_2; set_solver.
Qed.

(** C9 does not hold of the code. [Erase(7)] on three buckets, of which
    bucket 1 holds key 7, looks the key up in every bucket ([find]) before
    any lock is taken, and takes the lock of bucket 1 only after the key was
    found there: the lookup and the removal are not one critical section. *)
Theorem Erase_looks_key_up_before_locking :
  (ConcurrentMap.Erase 7 example_buckets).2
  = [ ConcurrentMap.find 0 7;
      ConcurrentMap.find 1 7; ConcurrentMap.lock 1; ConcurrentMap.erase 1 7;
      ConcurrentMap.unlock 1;
      ConcurrentMap.find 2 7 ]
  ∧ ConcurrentMap.lock_discipline ∅ (ConcurrentMap.Erase 7 example_buckets).2 = false.
Proof. split; by vm_compute. Qed.

(** ** The model at concrete inputs *)

(** C1 does not hold of the code. Each [MatchDocument] body keeps the query
    it parsed first in a [static] variable: after a call with the query
    "hound", a call with "ears" for the same document answers [hound], where
    a first call with "ears" answers [ears]. The overload taking
    [std::execution::seq] runs the same body; the overload taking
    [std::execution::par] has a [static] variable of its own. *)
Theorem MatchDocument_answers_second_call_from_first_query :
  let after_hound :=
    (MatchDocument split_on_spaces program_start example_server "hound" 1).1 in
  let after_hound_parallel :=
    (MatchDocument_parallel_policy split_on_spaces program_start example_server "hound" 1).1 in
  (MatchDocument split_on_spaces program_start example_server "ears" 1).2
    = Ok (["ears"], ACTUAL)
  ∧ (MatchDocument split_on_spaces after_hound example_server "ears" 1).2
    = Ok (["hound"], ACTUAL)
  ∧ (MatchDocument_sequenced_policy split_on_spaces after_hound example_server "ears" 1).2
    = Ok (["hound"], ACTUAL)
  ∧ (MatchDocument_parallel_policy split_on_spaces program_start example_server "ears" 1).2
    = Ok (["ears"], ACTUAL)
  ∧ (MatchDocument_parallel_policy split_on_spaces after_hound_parallel
       example_server "ears" 1).2
    = Ok (["hound"], ACTUAL).
Proof. vm_compute. repeat split. Qed.

(** C6 does not hold of the code. Document 1 holds the word [ears]; after a
    call with the query "hound", [MatchDocument] called with "hound -ears"
    matches document 1 with [hound], where a first call with that query
    matches it with no word. *)
Theorem MatchDocument_matches_document_that_holds_minus_word :
  let after_hound :=
    (MatchDocument split_on_spaces program_start example_server "hound" 1).1 in
  is_Some (GetWordFrequencies example_server 1 !! "ears")
  ∧ ParseQuery split_on_spaces example_server "hound -ears" true
    = Ok (mkQuery ["hound"] ["ears"])
  ∧ (MatchDocument split_on_spaces program_start example_server "hound -ears" 1).2
    = Ok ([], ACTUAL)
  ∧ (MatchDocument split_on_spaces after_hound example_server "hound -ears" 1).2
    = Ok (["hound"], ACTUAL).
Proof. vm_compute. repeat split. by eexists. Qed.




Lemma RemoveDocument_of_absent_id_changes_nothing_witness :
  RemoveDocument example_server 7 = example_server
  ∧ RemoveDocument_sequenced_policy example_server 7 = example_server
  ∧ RemoveDocument_parallel_policy example_server 7 = example_server.
Proof.
  apply (RemoveDocument_of_absent_id_changes_nothing split_on_spaces
           example_stop_words example_operations).
  - vm_compute. reflexivity.
  - apply (bool_decide_unpack _). vm_compute. exact I.
Defined.



Lemma RemoveDocument_parallel_policy_in_any_order_witness :
  RemoveDocument_parallel_policy_in ["with"; "hound"; "grey"; "ears"; "black"; "a"]
    example_server 1
  = RemoveDocument example_server 1.
Proof.
  apply RemoveDocument_parallel_policy_in_any_order.
  replace (copied_keys example_server 1)
    with ["a"; "black"; "ears"; "grey"; "hound"; "with"] by (vm_compute; reflexivity).
  symmetry. apply (Permutation_rev ["a"; "black"; "ears"; "grey"; "hound"; "with"]).
Defined.




Lemma AddDocument_returns_witness :
  (AddDocument split_on_spaces example_server 2 "white cat" ACTUAL [7; 2; 7]).2 = Ok ().
Proof.
  apply (AddDocument_returns split_on_spaces example_server 2 "white cat" ACTUAL
           [7; 2; 7] 5).
  - lia.
  - vm_compute. reflexivity.
  - intros word Hword. vm_compute in Hword.
    apply elem_of_cons in Hword as [-> | Hword]; [reflexivity |].
    apply list_elem_of_singleton in Hword as ->. reflexivity.
  - vm_compute. reflexivity.
Defined.

Lemma ComputeAverageRating_returns_witness :
  ComputeAverageRating [5; -12; 2; 0] = Ok (Z.quot (Zsum [5; -12; 2; 0]) 4).
Proof.
  apply (ComputeAverageRating_returns [5; -12; 2; 0]).
  - discriminate.
  - vm_compute. discriminate.
  - intros k. do 5 (destruct k as [| k]; [reflexivity |]). reflexivity.
Defined.

(** * Further properties *)

(** ** The order of strings *)

Lemma Ascii_compare_refl (c : ascii) : Ascii.compare c c = Eq.
Proof. unfold Ascii.compare. apply N.compare_refl. Qed.

Lemma Ascii_compare_lt_trans (a b c : ascii) :
  Ascii.compare a b = Lt → Ascii.compare b c = Lt → Ascii.compare a c = Lt.
Proof.
  unfold Ascii.compare. rewrite !N.compare_lt_iff. apply N.lt_trans.
Qed.

Lemma String_compare_refl (a : string) : String.compare a a = Eq.
Proof.
  induction a as [| c a IH]; simpl; [done |]. by rewrite Ascii_compare_refl.
Qed.

Lemma String_compare_lt_trans (a b c : string) :
  String.compare a b = Lt → String.compare b c = Lt → String.compare a c = Lt.
Proof.
  revert b c. induction a as [| x a IH]; intros [| y b] [| z c]; simpl; try done.
  destruct (Ascii.compare x y) eqn:Hxy; [| | done].
  - apply Ascii.compare_eq_iff in Hxy as ->.
    destruct (Ascii.compare y z); [apply IH | done | done].
  - destruct (Ascii.compare y z) eqn:Hyz; [| | done].
    + apply Ascii.compare_eq_iff in Hyz as <-. by rewrite Hxy.
    + by rewrite (Ascii_compare_lt_trans x y z).
Qed.

Lemma string_lt_compare (a b : string) : string_lt a b ↔ String.compare a b = Lt.
Proof.
  unfold string_lt, String.ltb. destruct (String.compare a b); split; congruence.
Qed.

#[global] Instance string_lt_irreflexive : Irreflexive string_lt.
Proof. intros a Ha%string_lt_compare. by rewrite String_compare_refl in Ha. Qed.

#[global] Instance string_lt_transitive : Transitive string_lt.
Proof.
  intros a b c Hab%string_lt_compare Hbc%string_lt_compare.
  apply string_lt_compare. by eapply String_compare_lt_trans.
Qed.

Lemma string_lt_trichotomy (a b : string) :
  String.ltb a b = false → String.ltb b a = false → a = b.
Proof.
  unfold String.ltb. rewrite (String.compare_antisym b a).
  destruct (String.compare a b) eqn:Hab; simpl; try done.
  intros _ _. by apply String.compare_eq_iff.
Qed.

(** ** [std_sort] and [unique] under a strict total order *)

Section StrictOrder.
Context {A : Type} `{EqDecision A} (lt : A → A → bool).
Context (lt_irrefl : ∀ a, lt a a = false).
Context (lt_trans : ∀ a b c, lt a b = true → lt b c = true → lt a c = true).
Context (lt_trichotomy : ∀ a b, lt a b = false → lt b a = false → a = b).

Set Default Proof Using "All".

Lemma lt_asym (a b : A) : lt a b = true → lt b a = false.
Proof.
  intros Hab. destruct (lt b a) eqn:Hba; [| done].
  by rewrite <- (lt_irrefl a), (lt_trans a b a).
Qed.

Lemma not_lt_trans (a b c : A) : lt b a = false → lt c b = false → lt c a = false.
Proof.
  intros Hba Hcb. destruct (lt c a) eqn:Hca; [| done].
  destruct (lt a b) eqn:Hab.
  - by rewrite (lt_trans c a b) in Hcb.
  - assert (a = b) as -> by (by apply lt_trichotomy). congruence.
Qed.

Lemma std_sort_ascending (l : list A) :
  Sorted (λ a b, lt b a = false) (std_sort lt l).
Proof.
  pose proof (std_sort_Sorted lt l) as Hsorted.
  induction Hsorted as [| a k Hk IH Hhd]; constructor; [done |].
  destruct Hhd as [| b k [Hno | Hyes]]; constructor; [done | by apply lt_asym].
Qed.

Lemma unique_head (x : A) (l : list A) : ∃ k, unique (x :: l) = x :: k.
Proof.
  revert x. induction l as [| y l IH]; intros x; simpl; [by eexists |].
  destruct (decide (x = y)) as [-> | _]; [apply IH | by eexists].
Qed.

Lemma elem_of_unique (x : A) (l : list A) : x ∈ unique l ↔ x ∈ l.
Proof.
  induction l as [| y l IH]; [done |].
  destruct l as [| z l]; [done |].
  change (unique (y :: z :: l))
    with (if decide (y = z) then unique (z :: l) else y :: unique (z :: l)).
  destruct (decide (y = z)) as [-> | Hne].
  - rewrite IH, !elem_of_cons. tauto.
  - rewrite (elem_of_cons (unique _)), IH, !elem_of_cons. tauto.
Qed.

Lemma unique_strictly_ascending (l : list A) :
  Sorted (λ a b, lt b a = false) l → Sorted (λ a b, lt a b = true) (unique l).
Proof.
  induction 1 as [| x l Hl IH Hhd]; [constructor |].
  destruct l as [| y l]; [repeat constructor |].
  change (unique (x :: y :: l))
    with (if decide (x = y) then unique (y :: l) else x :: unique (y :: l)).
  destruct (decide (x = y)) as [-> | Hne]; [done |].
  constructor; [done |].
  destruct (unique_head y l) as [k ->]. constructor.
  apply HdRel_inv in Hhd.
  destruct (lt x y) eqn:Hxy; [done |]. by destruct Hne; apply lt_trichotomy.
Qed.

(** Sorting and then dropping repeated neighbours gives the members of the
    list in strictly ascending order. *)
Lemma sort_unique_strictly_ascending (l : list A) :
  StronglySorted (λ a b, lt a b = true) (unique (std_sort lt l)).
Proof.
  apply Sorted_StronglySorted.
  - intros a b c. apply lt_trans.
  - apply unique_strictly_ascending, std_sort_ascending.
Qed.

Lemma elem_of_sort_unique (x : A) (l : list A) : x ∈ unique (std_sort lt l) ↔ x ∈ l.
Proof. by rewrite elem_of_unique, std_sort_Permutation. Qed.

Lemma strictly_ascending_NoDup (l : list A) :
  StronglySorted (λ a b, lt a b = true) l → NoDup l.
Proof.
  induction 1 as [| x l _ IH Hall]; constructor; [| done].
  intros Hin. rewrite Forall_forall in Hall. specialize (Hall x Hin).
  by rewrite lt_irrefl in Hall.
Qed.

(** Two strictly ascending lists with the same members are the same list. *)
Lemma strictly_ascending_unique (l1 l2 : list A) :
  StronglySorted (λ a b, lt a b = true) l1 →
  StronglySorted (λ a b, lt a b = true) l2 →
  (∀ x, x ∈ l1 ↔ x ∈ l2) → l1 = l2.
Proof.
  intros H1 H2 Hsame.
  apply (StronglySorted_unique_strong (λ a b, lt a b = true)); [| done | done |].
  - intros a b _ _ Hab Hba. by rewrite (lt_asym a b) in Hba.
  - by apply NoDup_Permutation; [apply strictly_ascending_NoDup.. |].
Qed.

Lemma filter_strictly_ascending (p : A → bool) (l : list A) :
  StronglySorted (λ a b, lt a b = true) l →
  StronglySorted (λ a b, lt a b = true) (List.filter p l).
Proof.
  induction 1 as [| x l _ IH Hall]; simpl; [constructor |].
  destruct (p x); [| done]. constructor; [done |].
  rewrite Forall_forall in *. intros y Hy%list_elem_of_In%filter_In.
  apply Hall, list_elem_of_In, Hy.
Qed.

(** Filtering commutes with sorting and dropping repeated neighbours. *)
Lemma filter_sort_unique (p : A → bool) (l : list A) :
  List.filter p (unique (std_sort lt l)) = unique (std_sort lt (List.filter p l)).
Proof.
  apply strictly_ascending_unique.
  - apply filter_strictly_ascending, sort_unique_strictly_ascending.
  - apply sort_unique_strictly_ascending.
  - intros x. rewrite elem_of_sort_unique, !list_elem_of_In, !filter_In.
    by rewrite <- !list_elem_of_In, elem_of_sort_unique.
Qed.

Lemma existsb_sort_unique (p : A → bool) (l : list A) :
  existsb p (unique (std_sort lt l)) = existsb p l.
Proof.
  apply eq_true_iff_eq. rewrite !existsb_exists.
  split; intros (x & Hx & Hp); exists x; split; try done;
    by apply list_elem_of_In, elem_of_sort_unique, list_elem_of_In.
Qed.

End StrictOrder.

Set Default Proof Using "Type".

(** ** [ParseQueryWord] *)

Lemma prefix_minus (c : ascii) (rest : string) :
  String.prefix "-" (String c rest) = bool_decide (c = "-"%char).
Proof.
  destruct (decide (c = "-"%char)) as [-> | Hne].
  - rewrite bool_decide_eq_true_2 by done. simpl.
    destruct (ascii_dec "-" "-"); [by destruct rest | congruence].
  - rewrite bool_decide_eq_false_2 by done.
    change (String.prefix "-" (String c rest))
      with (if ascii_dec "-" c then String.prefix "" rest else false).
    destruct (ascii_dec "-" c); congruence.
Qed.

Lemma strip_minus_eq (c : ascii) (rest : string) :
  (match c with
   | "-"%char => (rest, true)
   | _ => (String c rest, false)
   end)
  = if bool_decide (c = "-"%char) then (rest, true) else (String c rest, false).
Proof.
  destruct (decide (c = "-"%char)) as [-> | Hne].
  - by rewrite bool_decide_eq_true_2.
  - rewrite bool_decide_eq_false_2 by done.
    destruct c as [[] [] [] [] [] [] [] []]; done.
Qed.

Lemma ParseQueryWord_unfold (s : SearchServer) (text : string) :
  ParseQueryWord s text =
  if bool_decide (text = "") then Throw (invalid_argument "Query word is empty")
  else
    let word := if String.prefix "-" text then substr_1 text else text in
    if bool_decide (word = "") || String.prefix "-" word || negb (IsValidWord word)
    then Throw (invalid_argument
                  (String.append "Query word " (String.append text " is invalid")))
    else Ok (mkQueryWord word (String.prefix "-" text) (IsStopWord s word)).
Proof.
  destruct text as [| c rest]; [done |].
  rewrite prefix_minus. unfold ParseQueryWord.
  rewrite bool_decide_eq_false_2 by done.
  rewrite strip_minus_eq. by destruct (bool_decide (c = "-"%char)).
Qed.

Lemma IsValidWord_substr_1 (text : string) :
  String.prefix "-" text = true → IsValidWord (substr_1 text) = IsValidWord text.
Proof.
  destruct text as [| c rest]; [done |]. rewrite prefix_minus.
  intros ->%bool_decide_eq_true. reflexivity.
Qed.

Lemma malformed_token_spec (text : string) :
  malformed_token text =
  bool_decide (text = "")
  || (let word := if String.prefix "-" text then substr_1 text else text in
      bool_decide (word = "") || String.prefix "-" word || negb (IsValidWord word)).
Proof.
  unfold malformed_token. destruct text as [| c rest]; [done |].
  rewrite (bool_decide_eq_false_2 (String c rest = "")) by done. cbn [orb].
  rewrite prefix_minus.
  destruct (decide (c = "-"%char)) as [-> | Hne].
  - rewrite (bool_decide_eq_true_2 ("-"%char = "-"%char)) by done.
    cbn zeta iota. cbn [substr_1].
    change (IsValidWord (String "-" rest)) with (IsValidWord rest).
    destruct rest as [| c' rest']; [by vm_compute |].
    rewrite (bool_decide_eq_false_2 (String c' rest' = "")) by done.
    rewrite (bool_decide_eq_false_2 (String "-" (String c' rest') = "-")) by done.
    cbn [orb].
    assert (String.prefix "--" (String "-" (String c' rest'))
            = String.prefix "-" (String c' rest')) as ->; [| done].
    change (String.prefix "--" (String "-" (String c' rest')))
      with (if ascii_dec "-" "-" then String.prefix "-" (String c' rest') else false).
    by destruct (ascii_dec "-" "-").
  - rewrite (bool_decide_eq_false_2 (c = "-"%char)) by done. cbn zeta iota.
    rewrite (bool_decide_eq_false_2 (String c rest = "")) by done.
    rewrite prefix_minus, (bool_decide_eq_false_2 (c = "-"%char)) by done.
    assert (bool_decide (String c rest = "-") = false) as ->.
    { apply bool_decide_eq_false_2. by intros [= -> _]. }
    assert (String.prefix "--" (String c rest) = false) as ->; [| done].
    change (String.prefix "--" (String c rest))
      with (if ascii_dec "-" c then String.prefix "-" rest else false).
    destruct (ascii_dec "-" c); congruence.
Qed.

Lemma ParseQueryWord_throws (s : SearchServer) (text : string) :
  threw (ParseQueryWord s text) ↔ malformed_token text = true.
Proof.
  rewrite ParseQueryWord_unfold, malformed_token_spec.
  case_bool_decide; [done |]. cbn zeta. cbn [orb].
  by destruct (_ || _ || _).
Qed.

Lemma ParseQueryWord_defined (s : SearchServer) (text : string) :
  ParseQueryWord s text ≠ Undefined.
Proof.
  rewrite ParseQueryWord_unfold. case_bool_decide; [done |]. cbn zeta.
  by destruct (_ || _ || _).
Qed.

Lemma ParseQueryWord_Ok (s : SearchServer) (text : string) (query_word : QueryWord) :
  ParseQueryWord s text = Ok query_word →
  data query_word = (if String.prefix "-" text then substr_1 text else text)
  ∧ is_minus query_word = String.prefix "-" text
  ∧ is_stop query_word = IsStopWord s (data query_word)
  ∧ data query_word ≠ ""
  ∧ String.prefix "-" (data query_word) = false
  ∧ IsValidWord (data query_word) = true.
Proof.
  rewrite ParseQueryWord_unfold. case_bool_decide; [done |]. cbn zeta.
  set (word := if String.prefix "-" text then substr_1 text else text).
  destruct (bool_decide (word = "")) eqn:Hempty; [done |].
  destruct (String.prefix "-" word) eqn:Hminus; [done |].
  destruct (IsValidWord word) eqn:Hvalid; [| done].
  simpl. intros [= <-]. simpl. repeat split; try done.
  by apply bool_decide_eq_false in Hempty.
Qed.

(** ** [ParseQuery] *)

Lemma add_query_word_Ok (s : SearchServer) (result : Query) (token : string) :
  malformed_token token = false →
  add_query_word s result token
  = Ok (mkQuery
          (plus_words result ++ (if plus_token s token then [token] else []))
          (minus_words result
           ++ (if minus_token s token then [substr_1 token] else [])))%list.
Proof.
  intros Hwell. unfold add_query_word, plus_token, minus_token.
  rewrite ParseQueryWord_unfold. rewrite malformed_token_spec in Hwell.
  apply orb_false_iff in Hwell as [Hempty Hwell]. rewrite Hempty.
  cbn zeta in *. rewrite Hwell. cbn.
  destruct (String.prefix "-" token) eqn:Hminus; cbn.
  - destruct (IsStopWord s (substr_1 token)); cbn;
      rewrite ?app_nil_r; by destruct result.
  - destruct (IsStopWord s token); cbn;
      rewrite ?app_nil_r; by destruct result.
Qed.

Lemma add_query_word_throws (s : SearchServer) (result : Query) (token : string) :
  threw (add_query_word s result token) ↔ malformed_token token = true.
Proof.
  destruct (malformed_token token) eqn:Hmal.
  - apply (ParseQueryWord_throws s) in Hmal. unfold add_query_word.
    by destruct (ParseQueryWord s token).
  - by rewrite add_query_word_Ok.
Qed.

Lemma query_loop_Ok (s : SearchServer) (tokens : list string) (result : Query) :
  (∀ token, token ∈ tokens → malformed_token token = false) →
  for_each (add_query_word s) tokens result
  = Ok (mkQuery
          (plus_words result ++ List.filter (plus_token s) tokens)
          (minus_words result ++ map substr_1 (List.filter (minus_token s) tokens)))%list.
Proof.
  revert result. induction tokens as [| token tokens IH]; intros result Hwell.
  - cbn. rewrite !app_nil_r. by destruct result.
  - cbn [for_each]. rewrite add_query_word_Ok by (apply Hwell; left).
    cbn [mbind res_bind]. rewrite IH by (intros; apply Hwell; by right).
    cbn [plus_words minus_words List.filter].
    destruct (plus_token s token), (minus_token s token);
      cbn [map]; by rewrite <- ?app_assoc, ?app_nil_r.
Qed.

Lemma query_loop_throws (s : SearchServer) (tokens : list string) (result : Query) :
  threw (for_each (add_query_word s) tokens result)
  ↔ ∃ token, token ∈ tokens ∧ malformed_token token = true.
Proof.
  revert result. induction tokens as [| token tokens IH]; intros result.
  - cbn. split; [done |]. intros (token & Hin & _). by apply elem_of_nil in Hin.
  - cbn [for_each]. destruct (malformed_token token) eqn:Hmal.
    + pose proof (proj2 (add_query_word_throws s result token) Hmal) as Hthrew.
      destruct (add_query_word s result token); try done.
      split; [| done]. intros _. exists token. split; [left | done].
    + rewrite add_query_word_Ok by done. cbn [mbind res_bind]. rewrite IH.
      split.
      * intros (token' & Hin & Hmal'). exists token'. split; [by right | done].
      * intros (token' & Hin & Hmal'). exists token'. split; [| done].
        apply elem_of_cons in Hin as [-> | Hin]; [congruence | done].
Qed.

Lemma query_loop_defined (s : SearchServer) (tokens : list string) (result : Query) :
  for_each (add_query_word s) tokens result ≠ Undefined.
Proof.
  revert result. induction tokens as [| token tokens IH]; intros result; [done |].
  cbn [for_each]. destruct (malformed_token token) eqn:Hmal.
  - apply (add_query_word_throws s result) in Hmal.
    by destruct (add_query_word s result token).
  - rewrite add_query_word_Ok by done. apply IH.
Qed.

Lemma well_formed_or_not (tokens : list string) :
  (∀ token, token ∈ tokens → malformed_token token = false)
  ∨ ∃ token, token ∈ tokens ∧ malformed_token token = true.
Proof.
  induction tokens as [| token tokens [IH | (token' & Hin & Hmal)]].
  - left. intros token Hin. by apply elem_of_nil in Hin.
  - destruct (malformed_token token) eqn:Hmal.
    + right. exists token. split; [left | done].
    + left. intros token' [-> | Hin]%elem_of_cons; [done | by apply IH].
  - right. exists token'. split; [by right | done].
Qed.

Section Queries.

Context (SplitIntoWords : string → list string).

Lemma ParseQuery_Ok (s : SearchServer) (text : string) (is_parallel : bool) :
  (∀ token, token ∈ SplitIntoWords text → malformed_token token = false) →
  ParseQuery SplitIntoWords s text is_parallel
  = let plus := List.filter (plus_token s) (SplitIntoWords text) in
    let minus := map substr_1 (List.filter (minus_token s) (SplitIntoWords text)) in
    if is_parallel
    then Ok (mkQuery (unique (std_sort String.ltb plus)) (unique (std_sort String.ltb minus)))
    else Ok (mkQuery plus minus).
Proof.
  intros Hwell. unfold ParseQuery. rewrite query_loop_Ok by done.
  cbn [mbind res_bind plus_words minus_words app]. by destruct is_parallel.
Qed.

Lemma ParseQuery_throws (s : SearchServer) (text : string) (is_parallel : bool) :
  threw (ParseQuery SplitIntoWords s text is_parallel)
  ↔ ∃ token, token ∈ SplitIntoWords text ∧ malformed_token token = true.
Proof.
  rewrite <- (query_loop_throws s _ (mkQuery [] [])). unfold ParseQuery.
  destruct (for_each _ _ _); cbn; [by destruct is_parallel | done | done].
Qed.

Lemma ParseQuery_defined (s : SearchServer) (text : string) (is_parallel : bool) :
  ParseQuery SplitIntoWords s text is_parallel ≠ Undefined.
Proof.
  pose proof (query_loop_defined s (SplitIntoWords text) (mkQuery [] [])) as Hdef.
  unfold ParseQuery. destruct (for_each _ _ _); cbn; [by destruct is_parallel | done | done].
Qed.

Lemma ParseQuery_Ok_inv (s : SearchServer) (text : string) (is_parallel : bool)
    (query : Query) :
  ParseQuery SplitIntoWords s text is_parallel = Ok query →
  ∀ token, token ∈ SplitIntoWords text → malformed_token token = false.
Proof.
  intros Hquery.
  destruct (well_formed_or_not (SplitIntoWords text)) as [Hwell | Hmal]; [done |].
  apply (ParseQuery_throws s text is_parallel) in Hmal. by rewrite Hquery in Hmal.
Qed.

End Queries.

Lemma malformed_token_cases (token : string) :
  malformed_token token = true
  ↔ token = "" ∨ token = "-" ∨ String.prefix "--" token = true
    ∨ ∃ c, c ∈ list_ascii_of_string token ∧ (nat_of_ascii c < 32)%nat.
Proof.
  unfold malformed_token. rewrite !orb_true_iff, !bool_decide_eq_true, negb_true_iff.
  rewrite IsValidWord_false. intuition.
Qed.

Lemma minus_token_shape (token : string) :
  String.prefix "-" token = true → token = String.append "-" (substr_1 token).
Proof.
  destruct token as [| c rest]; [done |]. rewrite prefix_minus.
  by intros ->%bool_decide_eq_true.
Qed.

Lemma elem_of_plus_tokens (s : SearchServer) (tokens : list string) (word : string) :
  word ∈ List.filter (plus_token s) tokens
  ↔ word ∈ tokens ∧ String.prefix "-" word = false ∧ IsStopWord s word = false.
Proof.
  rewrite list_elem_of_In, filter_In, <- list_elem_of_In. unfold plus_token.
  by rewrite andb_true_iff, !negb_true_iff.
Qed.

Lemma elem_of_minus_tokens (s : SearchServer) (tokens : list string) (word : string) :
  word ∈ map substr_1 (List.filter (minus_token s) tokens)
  ↔ String.append "-" word ∈ tokens ∧ IsStopWord s word = false.
Proof.
  rewrite list_elem_of_In, in_map_iff. split.
  - intros (token & <- & [Hin [Hminus Hstop]%andb_true_iff]%filter_In).
    rewrite <- (minus_token_shape token) by done.
    by rewrite list_elem_of_In, <- negb_true_iff.
  - intros [Hin Hstop]. exists (String.append "-" word). split; [done |].
    apply filter_In. split; [by apply list_elem_of_In |].
    unfold minus_token. change (substr_1 (String.append "-" word)) with word.
    rewrite Hstop. change (String.append "-" word) with (String "-" word).
    by rewrite prefix_minus, bool_decide_eq_true_2.
Qed.

Section QueryTheorems.

Context (SplitIntoWords : string → list string).

(** X9.  [ParseQuery] throws exactly when a token of the text is empty, is a
    lone minus, begins with two minuses or holds a character below 0x20,
    with either value of [is_parallel]; it has no undefined behaviour. *)
Theorem ParseQuery_throws_exactly_on_malformed_token
    (s : SearchServer) (text : string) (is_parallel : bool) :
  (threw (ParseQuery SplitIntoWords s text is_parallel)
   ↔ ∃ token, token ∈ SplitIntoWords text
       ∧ (token = "" ∨ token = "-" ∨ String.prefix "--" token = true
          ∨ ∃ c, c ∈ list_ascii_of_string token ∧ (nat_of_ascii c < 32)%nat))
  ∧ ParseQuery SplitIntoWords s text is_parallel ≠ Undefined.
Proof.
  split; [| apply ParseQuery_defined].
  rewrite ParseQuery_throws. by setoid_rewrite malformed_token_cases.
Qed.

(** X10.  Called with [is_parallel = false], [ParseQuery] returns exactly
    when no token is malformed, and then the plus words are the tokens
    without a leading minus that are not stop words, and the minus words the
    tokens with a leading minus, the minus taken off, whose rest is not a
    stop word: both in the order of the text, repetitions kept. *)
Theorem ParseQuery_keeps_the_order_of_the_text
    (s : SearchServer) (text : string) (query : Query) :
  ParseQuery SplitIntoWords s text false = Ok query
  ↔ (∀ token, token ∈ SplitIntoWords text → malformed_token token = false)
    ∧ query = mkQuery (List.filter (plus_token s) (SplitIntoWords text))
                (map substr_1 (List.filter (minus_token s) (SplitIntoWords text))).
Proof.
  split.
  - intros Hquery. pose proof (ParseQuery_Ok_inv _ _ _ _ _ Hquery) as Hwell.
    split; [done |]. rewrite ParseQuery_Ok in Hquery by done. by injection Hquery.
  - intros [Hwell ->]. by rewrite ParseQuery_Ok.
Qed.

(** X11.  Called with [is_parallel = true], [ParseQuery] returns the plus
    words and the minus words in strictly ascending order (so without
    repetitions); a word is a plus word iff it is a token without a leading
    minus and not a stop word, and a minus word iff the token ["-" + word]
    occurs and the word is not a stop word. *)
Theorem ParseQuery_sorts_and_deduplicates
    (s : SearchServer) (text : string) (query : Query) :
  ParseQuery SplitIntoWords s text true = Ok query →
  StronglySorted string_lt (plus_words query)
  ∧ StronglySorted string_lt (minus_words query)
  ∧ (∀ word, word ∈ plus_words query
       ↔ word ∈ SplitIntoWords text
         ∧ String.prefix "-" word = false ∧ IsStopWord s word = false)
  ∧ (∀ word, word ∈ minus_words query
       ↔ String.append "-" word ∈ SplitIntoWords text ∧ IsStopWord s word = false).
Proof.
  intros Hquery. pose proof (ParseQuery_Ok_inv _ _ _ _ _ Hquery) as Hwell.
  rewrite ParseQuery_Ok in Hquery by done. cbn zeta in Hquery.
  injection Hquery as <-. cbn [plus_words minus_words].
  pose proof string_lt_irreflexive as Hirr.
  pose proof string_lt_transitive as Htrans.
  assert (∀ a, String.ltb a a = false) as Hirr'.
  { intros a. destruct (String.ltb a a) eqn:Hlt; [| done]. by destruct (Hirr a). }
  assert (∀ a b c, String.ltb a b = true → String.ltb b c = true → String.ltb a c = true)
    as Htrans' by (intros a b c; apply Htrans).
  split; [| split; [| split]].
  - apply (sort_unique_strictly_ascending String.ltb Hirr' Htrans' string_lt_trichotomy).
  - apply (sort_unique_strictly_ascending String.ltb Hirr' Htrans' string_lt_trichotomy).
  - intros word.
    rewrite (elem_of_sort_unique String.ltb Hirr' Htrans' string_lt_trichotomy).
    apply elem_of_plus_tokens.
  - intros word.
    rewrite (elem_of_sort_unique String.ltb Hirr' Htrans' string_lt_trichotomy).
    apply elem_of_minus_tokens.
Qed.

End QueryTheorems.

Lemma ParseQuery_sorts_and_deduplicates_witness :
  StronglySorted string_lt ["hound"; "tail"]
  ∧ StronglySorted string_lt ["ears"]
  ∧ Forall (λ word, word ∈ split_on_spaces "tail hound -ears in tail -ears"
                    ∧ String.prefix "-" word = false
                    ∧ IsStopWord example_server word = false) ["hound"; "tail"]
  ∧ Forall (λ word, String.append "-" word ∈ split_on_spaces "tail hound -ears in tail -ears"
                    ∧ IsStopWord example_server word = false) ["ears"].
Proof.
  destruct (ParseQuery_sorts_and_deduplicates split_on_spaces example_server
              "tail hound -ears in tail -ears" (mkQuery ["hound"; "tail"] ["ears"]))
    as (Hplus & Hminus & Hp & Hm); [vm_compute; reflexivity |].
  repeat split; [done | done | |].
  - apply Forall_forall. intros word. apply Hp.
  - apply Forall_forall. intros word. apply Hm.
Defined.

(** ** The index, word by word *)

Lemma keep_word_Ok (s : SearchServer) (words : list string) (word : string) :
  IsValidWord word = true →
  keep_word s words word
  = Ok (words ++ if negb (IsStopWord s word) then [word] else [])%list.
Proof.
  intros Hvalid. unfold keep_word. rewrite Hvalid. cbn [negb].
  destruct (negb (IsStopWord s word)); by rewrite ?app_nil_r.
Qed.

Lemma keep_words_Ok (s : SearchServer) (tokens acc : list string) :
  (∀ word, word ∈ tokens → IsValidWord word = true) →
  for_each (keep_word s) tokens acc
  = Ok (acc ++ List.filter (λ word, negb (IsStopWord s word)) tokens)%list.
Proof.
  revert acc. induction tokens as [| token tokens IH]; intros acc Hvalid.
  - cbn. by rewrite app_nil_r.
  - cbn [for_each List.filter]. rewrite keep_word_Ok by (apply Hvalid; left).
    cbn [mbind res_bind]. rewrite IH by (intros; apply Hvalid; by right).
    destruct (negb (IsStopWord s token)); by rewrite <- ?app_assoc, ?app_nil_r.
Qed.

Lemma valid_or_not (tokens : list string) :
  (∀ word, word ∈ tokens → IsValidWord word = true)
  ∨ ∃ word, word ∈ tokens ∧ IsValidWord word = false.
Proof.
  induction tokens as [| token tokens [IH | (word & Hin & Hbad)]].
  - left. intros word Hin. by apply elem_of_nil in Hin.
  - destruct (IsValidWord token) eqn:Hvalid.
    + left. intros word [-> | Hin]%elem_of_cons; [done | by apply IH].
    + right. exists token. split; [left | done].
  - right. exists word. split; [by right | done].
Qed.

Lemma add_words_other_postings (document_id : Z) (inv_word_count : Q)
    (words : list string) (s : SearchServer) (word : string) (d : Z) :
  d ≠ document_id →
  freq_by_word (fold_left (add_word document_id inv_word_count) words s) word d
  = freq_by_word s word d.
Proof.
  intros Hd. revert s. induction words as [| w words IH]; intros s; simpl; [done |].
  rewrite IH, freq_by_word_add_word. by rewrite decide_False by (intros [_ ?]; done).
Qed.

Lemma add_words_frequency (document_id : Z) (inv_word_count : Q)
    (words : list string) (s : SearchServer) (word : string) :
  match freq_by_document
          (fold_left (add_word document_id inv_word_count) words s) document_id word with
  | Some frequency =>
      (word ∈ words ∨ is_Some (freq_by_document s document_id word))
      ∧ (frequency == default 0 (freq_by_document s document_id word)
                      + inject_Z (Z.of_nat (count_occ string_dec words word))
                        * inv_word_count)%Q
  | None => (word ∉ words) ∧ freq_by_document s document_id word = None
  end.
Proof.
  revert s. induction words as [| w words IH]; intros s.
  - cbn [fold_left count_occ]. destruct (freq_by_document s document_id word) eqn:Hf.
    + split; [right; by eexists |]. cbn. ring.
    + split; [apply not_elem_of_nil | done].
  - cbn [fold_left]. specialize (IH (add_word document_id inv_word_count s w)).
    rewrite freq_by_document_add_word in IH.
    destruct (freq_by_document (fold_left _ words _) document_id word) as [f |].
    + destruct IH as [Hin Hf]. destruct (decide (word = w)) as [-> | Hne].
      * rewrite decide_True in Hf by done. split; [left; left |].
        rewrite count_occ_cons_eq by done.
        rewrite Hf, Nat2Z.inj_succ, <- Z.add_1_r, inject_Z_plus. cbn [from_option Datatypes.id].
        change (inject_Z 1) with 1%Q. ring.
      * rewrite decide_False in Hin, Hf by (intros [? _]; done).
        rewrite count_occ_cons_neq by done. split; [| done].
        destruct Hin as [Hin | Hin]; [left; by right | by right].
    + destruct IH as [Hin Hf]. case_decide as Hcase; [done |]. split; [| done].
      intros [-> | Hin']%elem_of_cons; [by apply Hcase | done].
Qed.

Lemma remove_inserted_id (document_id : Z) (ids : gset Z) :
  document_id ∉ ids → ({[document_id]} ∪ ids) ∖ {[document_id]} = ids.
Proof.
  intros Hnotin. apply set_eq. intros d.
  rewrite elem_of_ids_erase, elem_of_ids_insert. split.
  - by intros [[-> | Hin] Hne].
  - intros Hin. split; [by right | by intros ->].
Qed.

Lemma Sorted_le_NoDup (l : list Z) :
  Sorted Z.le l → NoDup l → StronglySorted Z.lt l.
Proof.
  intros Hsorted%Sorted_StronglySorted; [| intros ???; lia].
  induction Hsorted as [| x l Hl IH Hx]; intros Hnodup; [constructor |].
  apply NoDup_cons in Hnodup as [Hnotin Hnodup]. constructor; [by apply IH |].
  apply Forall_forall. intros y Hy.
  pose proof (proj1 (Forall_forall _ _) Hx y Hy) as Hle.
  assert (x ≠ y) by (intros ->; done). lia.
Qed.

Lemma begin_to_end_Permutation (s : SearchServer) :
  begin_to_end s ≡ₚ elements (document_ids_ s).
Proof. apply merge_sort_Permutation. Qed.

Lemma begin_to_end_ascending (s : SearchServer) : StronglySorted Z.lt (begin_to_end s).
Proof.
  apply Sorted_le_NoDup.
  - apply (Sorted_merge_sort Z.le).
  - rewrite begin_to_end_Permutation. apply NoDup_elements.
Qed.

Lemma elem_of_begin_to_end (s : SearchServer) (d : Z) :
  d ∈ begin_to_end s ↔ d ∈ document_ids_ s.
Proof. by rewrite begin_to_end_Permutation, elem_of_elements. Qed.

Lemma consistent_ids_dom (s : SearchServer) :
  consistent s → dom (documents_ s) = document_ids_ s.
Proof.
  intros Hs. apply set_eq. intros d. rewrite elem_of_dom. symmetry. apply Hs.
Qed.

Lemma consistent_first_entry (s : SearchServer) (document_id : Z) :
  consistent s → documents_ s !! document_id = None →
  document_to_word_freqs_ s !! document_id = None
  ∧ ∀ word, freq_by_word s word document_id = None.
Proof.
  intros Hs Hnew.
  assert (document_to_word_freqs_ s !! document_id = None) as Hfirst.
  { apply eq_None_not_Some. intros Hsome%(indexed_is_stored s Hs).
    rewrite Hnew in Hsome. by destruct Hsome. }
  split; [done |]. intros word. rewrite (views_agree s Hs).
  unfold freq_by_document. by rewrite Hfirst.
Qed.

Section IndexTheorems.

Context (SplitIntoWords : string → list string).

Lemma SplitIntoWordsNoStop_Ok (s : SearchServer) (text : string) :
  (∀ word, word ∈ SplitIntoWords text → IsValidWord word = true) →
  SplitIntoWordsNoStop SplitIntoWords s text
  = Ok (List.filter (λ word, negb (IsStopWord s word)) (SplitIntoWords text)).
Proof. intros Hvalid. unfold SplitIntoWordsNoStop. by rewrite keep_words_Ok. Qed.

(** X12.  [SplitIntoWordsNoStop] returns exactly when every token is valid,
    and then it returns the tokens that are not stop words, in the order of
    the text, repetitions kept. *)
Theorem SplitIntoWordsNoStop_drops_the_stop_words
    (s : SearchServer) (text : string) (words : list string) :
  SplitIntoWordsNoStop SplitIntoWords s text = Ok words
  ↔ (∀ word, word ∈ SplitIntoWords text → IsValidWord word = true)
    ∧ words = List.filter (λ word, negb (IsStopWord s word)) (SplitIntoWords text).
Proof.
  split.
  - intros Hwords.
    destruct (valid_or_not (SplitIntoWords text)) as [Hvalid | Hbad].
    + split; [done |]. rewrite SplitIntoWordsNoStop_Ok in Hwords by done. congruence.
    + apply (SplitIntoWordsNoStop_throws SplitIntoWords s) in Hbad.
      by rewrite Hwords in Hbad.
  - intros [Hvalid ->]. by apply SplitIntoWordsNoStop_Ok.
Qed.

Lemma AddDocument_frame (s : SearchServer) (document_id : Z) (document : string)
    (status : DocumentStatus) (ratings : list Z) (d : Z) :
  d ≠ document_id →
  let s' := (AddDocument SplitIntoWords s document_id document status ratings).1 in
  stop_words_ s' = stop_words_ s
  ∧ document_to_word_freqs_ s' !! d = document_to_word_freqs_ s !! d
  ∧ (∀ word, freq_by_word s' word d = freq_by_word s word d)
  ∧ documents_ s' !! d = documents_ s !! d
  ∧ (d ∈ document_ids_ s' ↔ d ∈ document_ids_ s).
Proof.
  intros Hd. unfold AddDocument.
  destruct (_ || _); [done |].
  destruct (SplitIntoWordsNoStop SplitIntoWords s document) as [words | e |];
    [| done..].
  set (inv_word_count := (1 / inject_Z (Z.of_nat (length words)))%Q).
  destruct (add_words_frame document_id inv_word_count words s) as (Hstop & Hdocs & Hids).
  assert (∀ word,
            freq_by_word (fold_left (add_word document_id inv_word_count) words s) word d
            = freq_by_word s word d) as Hpost
    by (intros; by apply add_words_other_postings).
  pose proof (add_words_other_document document_id inv_word_count words s d Hd) as Hdoc.
  destruct (ComputeAverageRating ratings) as [rating | e |]; cbn zeta; cbn [fst].
  - cbn [stop_words_ document_to_word_freqs_ documents_ document_ids_].
    split; [done |]. split; [done |]. split; [done |]. split.
    + rewrite Hdocs. unfold emplace.
      destruct (documents_ s !! document_id); [done | by rewrite lookup_insert_ne].
    + rewrite Hids, elem_of_ids_insert. split; [by intros [? | ?] | by right].
  - by rewrite Hdocs, Hids.
  - by rewrite Hdocs, Hids.
Qed.





(** X17.  On a server reached by [AddDocument] and [RemoveDocument] calls, a
    loop from [begin()] to [end()] visits the ids of the stored documents,
    each once, in ascending order, and [GetDocumentCount] is their number
    (as long as it fits an [int]). *)
Theorem iteration_visits_the_stored_documents
    (stop_words : gset string) (ops : list operation) (s : SearchServer) :
  run SplitIntoWords ops (fresh stop_words) = Some s →
  StronglySorted Z.lt (begin_to_end s)
  ∧ (∀ d, d ∈ begin_to_end s ↔ is_Some (documents_ s !! d))
  ∧ (Z.of_nat (length (begin_to_end s)) ≤ Int.MAX →
     GetDocumentCount s = Z.of_nat (length (begin_to_end s))).
Proof.
  intros Hrun.
  pose proof (run_consistent SplitIntoWords ops _ _ (fresh_consistent stop_words) Hrun)
    as Hs.
  split; [apply begin_to_end_ascending |]. split.
  - intros d. rewrite elem_of_begin_to_end. apply (ids_are_stored _ Hs).
  - assert (length (begin_to_end s) = size (documents_ s)) as ->.
    { rewrite begin_to_end_Permutation, <- size_dom, (consistent_ids_dom s Hs). done. }
    intros Hfits. unfold GetDocumentCount. by apply of_size_small.
Qed.

End IndexTheorems.

Lemma erase_postings_keep_terms (document_id : Z) (words : list string)
    (postings : gmap string (gmap Z Q)) (word : string) :
  word ∈ words ∨ is_Some (postings !! word) →
  is_Some (fold_left (erase_posting document_id) words postings !! word).
Proof.
  revert postings. induction words as [| w words IH]; intros postings Hword.
  - destruct Hword as [Hin | Hsome]; [by apply elem_of_nil in Hin | done].
  - cbn [fold_left]. apply IH. unfold erase_posting.
    destruct (decide (word = w)) as [-> | Hne].
    + right. rewrite lookup_insert_eq. by eexists.
    + rewrite lookup_insert_ne by done.
      destruct Hword as [[-> | Hin]%elem_of_cons | Hsome]; [done | by left | by right].
Qed.

(** X18.  [RemoveDocument] never erases a term from
    [word_to_document_freqs_]: the terms of the server and the terms of the
    removed document all have an entry afterwards (an empty one, when the
    document was the last to hold the term). *)
Theorem RemoveDocument_never_forgets_a_term
    (s : SearchServer) (document_id : Z) (word : string) :
  is_Some (word_to_document_freqs_ s !! word)
  ∨ is_Some (GetWordFrequencies s document_id !! word) →
  is_Some (word_to_document_freqs_ (RemoveDocument s document_id) !! word).
Proof.
  intros Hword. rewrite <- RemoveDocument_parallel_policy_eq.
  unfold RemoveDocument_parallel_policy, RemoveDocument_parallel_policy_in, copied_keys.
  cbn [word_to_document_freqs_]. apply erase_postings_keep_terms.
  destruct Hword as [Hsome | Hin]; [by right | left].
  by apply elem_of_keys_in_order.
Qed.

Lemma RemoveDocument_never_forgets_a_term_witness :
  is_Some (word_to_document_freqs_ (RemoveDocument example_server_with_cat 2) !! "cat").
Proof.
  apply (RemoveDocument_never_forgets_a_term example_server_with_cat 2 "cat").
  right. vm_compute. by eexists.
Defined.





Lemma iteration_visits_the_stored_documents_witness :
  StronglySorted Z.lt (begin_to_end example_server)
  ∧ (∀ d, d ∈ begin_to_end example_server ↔ is_Some (documents_ example_server !! d))
  ∧ (Z.of_nat (length (begin_to_end example_server)) ≤ Int.MAX →
     GetDocumentCount example_server = Z.of_nat (length (begin_to_end example_server))).
Proof.
  apply (iteration_visits_the_stored_documents split_on_spaces
           example_stop_words example_operations example_server).
  vm_compute. reflexivity.
Defined.

(** ** [MatchDocument], first call *)

Lemma String_ltb_irrefl (a : string) : String.ltb a a = false.
Proof.
  destruct (String.ltb a a) eqn:Hlt; [| done]. by destruct (string_lt_irreflexive a).
Qed.

Lemma String_ltb_trans (a b c : string) :
  String.ltb a b = true → String.ltb b c = true → String.ltb a c = true.
Proof. apply string_lt_transitive. Qed.

Lemma ParseQueryWord_exception (s : SearchServer) (text : string) (e : exception) :
  ParseQueryWord s text = Throw e → ∃ what, e = invalid_argument what.
Proof.
  rewrite ParseQueryWord_unfold. case_bool_decide; [intros [= <-]; by eexists |].
  cbn zeta. destruct (_ || _ || _); [intros [= <-]; by eexists | done].
Qed.

Lemma query_loop_exception (s : SearchServer) (tokens : list string) (result : Query)
    (e : exception) :
  for_each (add_query_word s) tokens result = Throw e → ∃ what, e = invalid_argument what.
Proof.
  revert result. induction tokens as [| token tokens IH]; intros result; [done |].
  cbn [for_each]. destruct (add_query_word s result token) as [result' | e' |] eqn:Hword;
    cbn [mbind res_bind]; [apply IH | | done].
  intros [= <-]. unfold add_query_word in Hword.
  destruct (ParseQueryWord s token) as [query_word | e'' |] eqn:Hparse;
    cbn [mbind res_bind] in Hword.
  - by repeat case_match.
  - injection Hword as <-. by apply ParseQueryWord_exception in Hparse.
  - done.
Qed.

Lemma match_with_Ok (s : SearchServer) (query : Query) (d : Z) (data : DocumentData.t) :
  documents_ s !! d = Some data →
  match_with s query d
  = Ok (if existsb (word_in_document s d) (minus_words query) then []
        else List.filter (word_in_document s d) (plus_words query),
        DocumentData.status data).
Proof.
  intros Hdata. unfold match_with, map_at. rewrite Hdata.
  by destruct (existsb _ _).
Qed.

Lemma match_with_parallel_sorted_query (s : SearchServer) (query : Query) (d : Z) :
  match_with_parallel s query d
  = match_with s (mkQuery (unique (std_sort String.ltb (plus_words query)))
                          (unique (std_sort String.ltb (minus_words query)))) d.
Proof.
  unfold match_with, match_with_parallel. cbn [plus_words minus_words].
  rewrite (existsb_sort_unique String.ltb String_ltb_irrefl String_ltb_trans
             string_lt_trichotomy).
  by rewrite (filter_sort_unique String.ltb String_ltb_irrefl String_ltb_trans
                string_lt_trichotomy).
Qed.

Lemma existsb_word_in_document (s : SearchServer) (d : Z) (words : list string) :
  existsb (word_in_document s d) words = true
  ↔ ∃ word, word ∈ words ∧ is_Some (freq_by_word s word d).
Proof.
  rewrite existsb_exists. setoid_rewrite word_in_document_spec.
  by setoid_rewrite list_elem_of_In.
Qed.

Section Matching.

Context (SplitIntoWords : string → list string).

Lemma ParseQuery_exception (s : SearchServer) (text : string) (is_parallel : bool)
    (e : exception) :
  ParseQuery SplitIntoWords s text is_parallel = Throw e → ∃ what, e = invalid_argument what.
Proof.
  unfold ParseQuery.
  destruct (for_each _ _ _) as [result | e' |] eqn:Hloop; cbn [mbind res_bind].
  - by destruct is_parallel.
  - intros [= <-]. by apply query_loop_exception in Hloop.
  - done.
Qed.

Lemma ParseQuery_parallel_of_sequential (s : SearchServer) (text : string) :
  ParseQuery SplitIntoWords s text true
  = query ← ParseQuery SplitIntoWords s text false;
    Ok (mkQuery (unique (std_sort String.ltb (plus_words query)))
                (unique (std_sort String.ltb (minus_words query)))).
Proof. unfold ParseQuery. by destruct (for_each _ _ _). Qed.

(** X19.  On a server reached by [AddDocument] and [RemoveDocument] calls, a
    [MatchDocument] call that finds its static query uninitialised throws
    [out_of_range] when the id is not live, whatever the query; throws
    [invalid_argument] when the id is live and a token of the query is
    malformed; and returns otherwise, never meeting undefined behaviour.
    The static is initialised by the returning call alone. *)
Theorem first_MatchDocument_outcome
    (stop_words : gset string) (ops : list operation) (s : SearchServer)
    (st : Statics) (raw_query : string) (d : Z) :
  run SplitIntoWords ops (fresh stop_words) = Some s →
  MatchDocument_query st = None →
  match MatchDocument SplitIntoWords st s raw_query d with
  | (st', Ok _) =>
      d ∈ document_ids_ s
      ∧ (∀ token, token ∈ SplitIntoWords raw_query → malformed_token token = false)
      ∧ ∃ query, ParseQuery SplitIntoWords s raw_query true = Ok query
                 ∧ st' = mkStatics (Some query) (MatchDocument_parallel_query st)
  | (st', Throw (out_of_range _)) => (d ∉ document_ids_ s) ∧ st' = st
  | (st', Throw (invalid_argument _)) =>
      d ∈ document_ids_ s
      ∧ (∃ token, token ∈ SplitIntoWords raw_query ∧ malformed_token token = true)
      ∧ st' = st
  | (_, Undefined) => False
  end.
Proof.
  intros Hrun Hstatic.
  pose proof (run_consistent SplitIntoWords ops _ _ (fresh_consistent stop_words) Hrun)
    as Hs.
  unfold MatchDocument. case_bool_decide as Hlive; [done |].
  rewrite Hstatic. cbn [static_query].
  destruct (ParseQuery SplitIntoWords s raw_query true) as [query | e |] eqn:Hquery.
  - destruct (proj1 (ids_are_stored _ Hs d) Hlive) as [data Hdata].
    rewrite (match_with_Ok _ _ _ _ Hdata). split; [done |].
    split; [by eapply ParseQuery_Ok_inv |]. by exists query.
  - destruct (ParseQuery_exception _ _ _ _ Hquery) as [what ->].
    split; [done |]. split; [| done].
    apply (ParseQuery_throws SplitIntoWords s raw_query true). by rewrite Hquery.
  - by apply ParseQuery_defined in Hquery.
Qed.

(** X20.  Called first in a program, the plain [MatchDocument] and the
    overload for [std::execution::par] end the same way on every server,
    query and id: the same exception, or the same matched words and
    status. *)
Theorem first_MatchDocument_is_the_same_under_both_policies
    (s : SearchServer) (raw_query : string) (d : Z) :
  (MatchDocument_parallel_policy SplitIntoWords program_start s raw_query d).2
  = (MatchDocument SplitIntoWords program_start s raw_query d).2
  ∧ (MatchDocument_sequenced_policy SplitIntoWords program_start s raw_query d).2
    = (MatchDocument SplitIntoWords program_start s raw_query d).2.
Proof.
  split; [| done].
  unfold MatchDocument_parallel_policy, MatchDocument. case_bool_decide; [done |].
  cbn [program_start MatchDocument_query MatchDocument_parallel_query static_query].
  rewrite ParseQuery_parallel_of_sequential.
  destruct (ParseQuery SplitIntoWords s raw_query false) as [query | e |];
    cbn [mbind res_bind snd]; [| done..].
  apply match_with_parallel_sorted_query.
Qed.

(** X21.  When a [MatchDocument] call that finds its static query
    uninitialised returns, the status is the stored status of the document
    and the matched words are in strictly ascending order; a word is among
    them iff it is a token of the query without a leading minus, is not a
    stop word, occurs in the document, and no minus word of the query occurs
    in the document. *)
Theorem first_MatchDocument_result
    (s : SearchServer) (st : Statics) (raw_query : string) (d : Z)
    (matched_words : list string) (status : DocumentStatus) :
  MatchDocument_query st = None →
  (MatchDocument SplitIntoWords st s raw_query d).2 = Ok (matched_words, status) →
  DocumentData.status <$> documents_ s !! d = Some status
  ∧ StronglySorted string_lt matched_words
  ∧ ∀ word, word ∈ matched_words
      ↔ (word ∈ SplitIntoWords raw_query
         ∧ String.prefix "-" word = false ∧ IsStopWord s word = false
         ∧ is_Some (freq_by_word s word d))
        ∧ ¬ ∃ minus_word, String.append "-" minus_word ∈ SplitIntoWords raw_query
                          ∧ IsStopWord s minus_word = false
                          ∧ is_Some (freq_by_word s minus_word d).
Proof.
  intros Hstatic. unfold MatchDocument. case_bool_decide as Hlive; [done |].
  rewrite Hstatic. cbn [static_query].
  destruct (ParseQuery SplitIntoWords s raw_query true) as [query | e |] eqn:Hquery;
    [| done..].
  cbn [snd]. unfold match_with, map_at.
  pose proof (ParseQuery_Ok_inv _ _ _ _ _ Hquery) as Hwell.
  rewrite ParseQuery_Ok in Hquery by done. cbn zeta in Hquery. injection Hquery as <-.
  cbn [plus_words minus_words].
  rewrite (existsb_sort_unique String.ltb String_ltb_irrefl String_ltb_trans
             string_lt_trichotomy).
  rewrite (filter_sort_unique String.ltb String_ltb_irrefl String_ltb_trans
             string_lt_trichotomy).
  assert ((∃ minus_word, String.append "-" minus_word ∈ SplitIntoWords raw_query
                         ∧ IsStopWord s minus_word = false
                         ∧ is_Some (freq_by_word s minus_word d))
          ↔ existsb (word_in_document s d)
              (map substr_1 (List.filter (minus_token s) (SplitIntoWords raw_query)))
            = true) as Hblocked.
  { rewrite existsb_word_in_document. setoid_rewrite elem_of_minus_tokens.
    split; intros (w & Hw); exists w; tauto. }
  destruct (documents_ s !! d) as [data |] eqn:Hdata; cbn [mbind res_bind];
    [| by destruct (existsb _ _)].
  destruct (existsb _ _) eqn:Hminus; cbn [mbind res_bind]; intros [= <- <-].
  - split; [done |]. split; [constructor |]. intros word. split.
    + by intros ?%elem_of_nil.
    + intros [_ Hno]. destruct Hno. by apply Hblocked.
  - split; [done |]. split.
    + apply (sort_unique_strictly_ascending String.ltb String_ltb_irrefl
               String_ltb_trans string_lt_trichotomy).
    + intros word.
      rewrite (elem_of_sort_unique String.ltb String_ltb_irrefl String_ltb_trans
                 string_lt_trichotomy).
      rewrite list_elem_of_In, filter_In, <- list_elem_of_In, elem_of_plus_tokens.
      rewrite word_in_document_spec. split.
      * intros [(? & ? & ?) ?]. split; [done |]. rewrite Hblocked. congruence.
      * intros [(? & ? & ? & ?) _]. done.
Qed.

End Matching.

Lemma first_MatchDocument_outcome_witness :
  match MatchDocument split_on_spaces program_start example_server "hound --ears" 1 with
  | (st', Ok _) =>
      1 ∈ document_ids_ example_server
      ∧ (∀ token, token ∈ split_on_spaces "hound --ears" → malformed_token token = false)
      ∧ ∃ query, ParseQuery split_on_spaces example_server "hound --ears" true = Ok query
                 ∧ st' = mkStatics (Some query) (MatchDocument_parallel_query program_start)
  | (st', Throw (out_of_range _)) => (1 ∉ document_ids_ example_server) ∧ st' = program_start
  | (st', Throw (invalid_argument _)) =>
      1 ∈ document_ids_ example_server
      ∧ (∃ token, token ∈ split_on_spaces "hound --ears" ∧ malformed_token token = true)
      ∧ st' = program_start
  | (_, Undefined) => False
  end.
Proof.
  apply (first_MatchDocument_outcome split_on_spaces example_stop_words
           example_operations example_server program_start "hound --ears" 1).
  - vm_compute. reflexivity.
  - reflexivity.
Defined.

Lemma first_MatchDocument_result_witness :
  DocumentData.status <$> documents_ example_server !! 1 = Some ACTUAL
  ∧ StronglySorted string_lt ["a"; "hound"]
  ∧ ∀ word, word ∈ ["a"; "hound"]
      ↔ (word ∈ split_on_spaces "hound a parrot a -wings"
         ∧ String.prefix "-" word = false ∧ IsStopWord example_server word = false
         ∧ is_Some (freq_by_word example_server word 1))
        ∧ ¬ ∃ minus_word,
              String.append "-" minus_word ∈ split_on_spaces "hound a parrot a -wings"
              ∧ IsStopWord example_server minus_word = false
              ∧ is_Some (freq_by_word example_server minus_word 1).
Proof.
  apply (first_MatchDocument_result split_on_spaces example_server program_start
           "hound a parrot a -wings" 1 ["a"; "hound"] ACTUAL).
  - reflexivity.
  - vm_compute. reflexivity.
Defined.

(** ** [FindAllDocuments], loop by loop *)

Lemma map_fmap {A B : Type} (f : A → B) (l : list A) : map f l = f <$> l.
Proof. induction l as [| x l IH]; [done |]. cbn. by rewrite IH. Qed.

Lemma NoDup_keys_in_order {K V : Type} `{Countable K}
    (le : relation K) `{∀ x y, Decision (le x y)} (m : gmap K V) :
  NoDup (map fst (in_key_order le m)).
Proof.
  rewrite map_fmap, in_key_order_Permutation. apply NoDup_fst_map_to_list.
Qed.

Lemma consistent_postings_are_stored (s : SearchServer) :
  consistent s → postings_are_stored s.
Proof.
  intros Hs word d Hf. apply (indexed_is_stored s Hs).
  rewrite (views_agree s Hs) in Hf. unfold freq_by_document in Hf.
  destruct (document_to_word_freqs_ s !! d); [by eexists |].
  cbn in Hf. by destruct Hf.
Qed.

Lemma word_in_document_lookup (s : SearchServer) (d : Z) (word : string) :
  word_in_document s d word
  = match word_to_document_freqs_ s !! word with
    | Some docs => bool_decide (is_Some (docs !! d))
    | None => false
    end.
Proof. done. Qed.

Lemma selects_stored (s : SearchServer) (document_predicate : DocumentPredicate) (d : Z) :
  selects s document_predicate d = true →
  ∃ data, documents_ s !! d = Some data
          ∧ document_predicate d (DocumentData.status data) (DocumentData.rating data)
            = true.
Proof.
  unfold selects. destruct (documents_ s !! d) as [data |]; [| done].
  intros Hpred. by exists data.
Qed.

Lemma accumulate_stored (s : SearchServer) (document_predicate : DocumentPredicate)
    (inverse_document_freq : Q) (m : gmap Z Q) (d : Z) (term_freq : Q) :
  is_Some (documents_ s !! d) →
  accumulate s document_predicate inverse_document_freq m (d, term_freq)
  = Ok (if selects s document_predicate d
        then <[d := (default 0 (m !! d) + term_freq * inverse_document_freq)%Q]> m
        else m).
Proof.
  intros [data Hdata]. unfold accumulate, selects, map_at. rewrite Hdata.
  cbn [mbind res_bind]. by destruct (document_predicate _ _ _).
Qed.

Lemma accumulate_loop (s : SearchServer) (document_predicate : DocumentPredicate)
    (inverse_document_freq : Q) (postings : list (Z * Q)) (m : gmap Z Q) :
  NoDup (map fst postings) →
  (∀ posting, posting ∈ postings → is_Some (documents_ s !! posting.1)) →
  ∃ m', for_each (accumulate s document_predicate inverse_document_freq) postings m = Ok m'
        ∧ (∀ d term_freq, (d, term_freq) ∈ postings →
             m' !! d = if selects s document_predicate d
                       then Some (default 0 (m !! d) + term_freq * inverse_document_freq)%Q
                       else m !! d)
        ∧ (∀ d, d ∉ map fst postings → m' !! d = m !! d).
Proof.
  revert m. induction postings as [| [d0 tf0] postings IH]; intros m Hnodup Hstored.
  - exists m. split; [done |]. split; [| done].
    intros d tf Hin. by apply elem_of_nil in Hin.
  - cbn [map fst] in Hnodup. apply NoDup_cons in Hnodup as [Hfresh Hnodup].
    cbn [for_each]. rewrite accumulate_stored by (apply (Hstored (d0, tf0)); left).
    cbn [mbind res_bind].
    set (m1 := if selects s document_predicate d0
               then <[d0 := (default 0 (m !! d0) + tf0 * inverse_document_freq)%Q]> m
               else m).
    assert (∀ d, d ≠ d0 → m1 !! d = m !! d) as Hm1.
    { intros d Hd. unfold m1.
      destruct (selects s document_predicate d0); [by rewrite lookup_insert_ne | done]. }
    destruct (IH m1 Hnodup) as (m' & Hloop & Hin & Hout).
    { intros posting Hposting. apply Hstored. by right. }
    exists m'. split; [done |]. split.
    + intros d tf [[= -> ->] | Hposting]%elem_of_cons.
      * rewrite (Hout d0 Hfresh). unfold m1.
        destruct (selects s document_predicate d0); [by rewrite lookup_insert_eq | done].
      * assert (d ≠ d0) as Hd.
        { intros ->. apply Hfresh. apply list_elem_of_In.
          apply (in_map fst postings (d0, tf)). by apply list_elem_of_In. }
        rewrite (Hin d tf Hposting). by rewrite (Hm1 d Hd).
    + intros d Hd. cbn [map fst] in Hd. apply not_elem_of_cons in Hd as [Hd Hrest].
      rewrite (Hout d Hrest). by apply Hm1.
Qed.

Lemma erase_matches_lookup (s : SearchServer) (m : gmap Z Q) (word : string) (d : Z) :
  erase_matches s m word !! d = if word_in_document s d word then None else m !! d.
Proof.
  unfold erase_matches. rewrite word_in_document_lookup.
  destruct (word_to_document_freqs_ s !! word) as [docs |]; [| done].
  rewrite erase_loop_lookup. unfold by_id.
  destruct (decide (d ∈ map fst (in_key_order Z.le docs))) as [Hin | Hout].
  - apply elem_of_keys_in_order in Hin. by rewrite bool_decide_eq_true_2.
  - rewrite bool_decide_eq_false_2; [done |]. intros Hin. apply Hout.
    by apply elem_of_keys_in_order.
Qed.

Lemma minus_loop_lookup (s : SearchServer) (minus : list string) (m : gmap Z Q) (d : Z) :
  fold_left (erase_matches s) minus m !! d
  = if existsb (word_in_document s d) minus then None else m !! d.
Proof.
  revert m. induction minus as [| word minus IH]; intros m; [done |].
  cbn [fold_left existsb]. rewrite IH, erase_matches_lookup.
  by destruct (word_in_document s d word), (existsb _ minus).
Qed.

Lemma emit_stored (s : SearchServer) (matched : list Document) (entry : Z * Q) :
  is_Some (documents_ s !! entry.1) →
  emit s matched entry = Ok (matched ++ [hit_of s entry])%list.
Proof.
  destruct entry as [d rel]. intros [data Hdata]. cbn [fst] in Hdata.
  unfold emit, hit_of, map_at. cbn [fst snd]. by rewrite Hdata.
Qed.

Lemma emit_loop_Ok (s : SearchServer) (entries : list (Z * Q)) (matched : list Document) :
  (∀ entry, entry ∈ entries → is_Some (documents_ s !! entry.1)) →
  for_each (emit s) entries matched = Ok (matched ++ map (hit_of s) entries)%list.
Proof.
  revert matched. induction entries as [| entry entries IH]; intros matched Hstored.
  - cbn. by rewrite app_nil_r.
  - cbn [for_each]. rewrite emit_stored by (apply Hstored; left).
    cbn [mbind res_bind]. rewrite IH by (intros; apply Hstored; by right).
    by rewrite <- app_assoc.
Qed.

Lemma elem_of_hits (s : SearchServer) (m : gmap Z Q) (hit : Document) :
  hit ∈ map (hit_of s) (by_id m) ↔ ∃ d rel, m !! d = Some rel ∧ hit = hit_of s (d, rel).
Proof.
  rewrite list_elem_of_In, in_map_iff. split.
  - intros ([d rel] & <- & Hin). exists d, rel. split; [| done].
    by apply list_elem_of_In, elem_of_in_key_order in Hin.
  - intros (d & rel & Hm & ->). exists (d, rel). split; [done |].
    by apply list_elem_of_In, elem_of_in_key_order.
Qed.

Lemma hit_ids (s : SearchServer) (entries : list (Z * Q)) :
  map id (map (hit_of s) entries) = map fst entries.
Proof. induction entries as [| entry entries IH]; [done |]. cbn. by rewrite IH. Qed.

Lemma truncate_NoDup {A B : Type} (f : A → B) (n : nat) (l : list A) :
  NoDup (map f l) → NoDup (map f (truncate n l)).
Proof.
  unfold truncate. destruct (n <? length l)%nat; [| done].
  rewrite <- firstn_map. intros Hnodup.
  by eapply sublist_NoDup; [| apply sublist_take].
Qed.

Lemma truncate_short {A : Type} (n : nat) (l : list A) :
  (length (truncate n l) < n)%nat → truncate n l = l.
Proof.
  unfold truncate. destruct (Nat.ltb_spec n (length l)) as [Hlong | Hshort]; [| done].
  rewrite length_take. lia.
Qed.

Section RankingLoops.

Context (log : Q → Q).

Lemma term_sum_rest (s : SearchServer) (d : Z) (words : list string) (acc : Q) :
  existsb (word_in_document s d) words = false →
  fold_left (λ acc word,
               if word_in_document s d word then (acc + tf_idf log s d word)%Q else acc)
    words acc = acc.
Proof.
  revert acc. induction words as [| word words IH]; intros acc; [done |].
  cbn [existsb fold_left]. intros [-> Hrest]%orb_false_iff. by apply IH.
Qed.

Lemma term_sum_Qsum (s : SearchServer) (d : Z) (words : list string) (acc : Q) :
  (fold_left (λ acc word,
                if word_in_document s d word then (acc + tf_idf log s d word)%Q else acc)
     words acc
   == acc + Qsum (map (tf_idf log s d) words))%Q.
Proof.
  revert acc. induction words as [| word words IH]; intros acc.
  - cbn. ring.
  - cbn [fold_left map].
    change (Qsum (tf_idf log s d word :: map (tf_idf log s d) words))
      with (tf_idf log s d word + Qsum (map (tf_idf log s d) words))%Q.
    rewrite IH. destruct (word_in_document s d word) eqn:Hword; [ring |].
    assert (tf_idf log s d word == 0)%Q as ->; [| ring].
    unfold tf_idf. rewrite word_in_document_lookup in Hword.
    destruct (word_to_document_freqs_ s !! word) as [docs |]; [| reflexivity].
    apply bool_decide_eq_false in Hword.
    destruct (docs !! d); [destruct Hword; by eexists |]. cbn. ring.
Qed.

Lemma plus_loop (s : SearchServer) (document_predicate : DocumentPredicate)
    (words : list string) (m0 : gmap Z Q) :
  postings_are_stored s →
  ∃ m,
    for_each
      (λ document_to_relevance word,
         match word_to_document_freqs_ s !! word with
         | Some docs =>
             inverse_document_freq ← ComputeWordInverseDocumentFreq log s word;
             for_each (accumulate s document_predicate inverse_document_freq)
               (by_id docs) document_to_relevance
         | None => Ok document_to_relevance
         end)
      words m0 = Ok m
    ∧ ∀ d, m !! d
        = if selects s document_predicate d && existsb (word_in_document s d) words
          then Some (fold_left
                       (λ acc word,
                          if word_in_document s d word
                          then (acc + tf_idf log s d word)%Q else acc)
                       words (default 0%Q (m0 !! d)))
          else m0 !! d.
Proof.
  intros Hstored. revert m0. induction words as [| word words IH]; intros m0.
  - exists m0. split; [done |]. intros d. by rewrite andb_false_r.
  - cbn [for_each].
    destruct (word_to_document_freqs_ s !! word) as [docs |] eqn:Hdocs.
    + unfold ComputeWordInverseDocumentFreq, map_at. rewrite Hdocs.
      cbn [mbind res_bind].
      set (idf := log (inject_Z (GetDocumentCount s) * 1
                       / inject_Z (Z.of_nat (size docs)))%Q).
      destruct (accumulate_loop s document_predicate idf (by_id docs) m0)
        as (m1 & Hloop & Hin & Hout).
      { apply NoDup_keys_in_order. }
      { intros [d tf] Hposting%elem_of_in_key_order. apply (Hstored word d).
        unfold freq_by_word. rewrite Hdocs. cbn. by eexists. }
      rewrite Hloop. cbn [mbind res_bind].
      destruct (IH m1) as (m & Hm & Hlookup). exists m. split; [done |].
      intros d. rewrite Hlookup. cbn [existsb fold_left].
      rewrite (word_in_document_lookup s d word), Hdocs.
      destruct (docs !! d) as [tf |] eqn:Htf.
      * rewrite bool_decide_eq_true_2 by (by eexists). cbn [orb].
        rewrite (Hin d tf) by (by apply elem_of_in_key_order).
        assert (tf_idf log s d word = (tf * idf)%Q) as ->.
        { unfold tf_idf. by rewrite Hdocs, Htf. }
        destruct (selects s document_predicate d); cbn [andb]; [| done].
        destruct (existsb (word_in_document s d) words) eqn:Hrest; [done |].
        cbn [from_option Datatypes.id]. by rewrite term_sum_rest.
      * rewrite bool_decide_eq_false_2 by (by intros [? ?]). cbn [orb].
        rewrite (Hout d); [done |]. intros Hd. unfold by_id in Hd.
        apply elem_of_keys_in_order in Hd as [? Hd]. congruence.
    + cbn [mbind res_bind]. destruct (IH m0) as (m & Hm & Hlookup).
      exists m. split; [done |]. intros d. rewrite Hlookup.
      cbn [existsb fold_left]. by rewrite (word_in_document_lookup s d word), Hdocs.
Qed.

Lemma FindAllDocuments_Ok (s : SearchServer) (query : Query)
    (document_predicate : DocumentPredicate) :
  postings_are_stored s →
  ∃ m,
    FindAllDocuments log s query document_predicate = Ok (map (hit_of s) (by_id m))
    ∧ ∀ d, m !! d
        = if selects s document_predicate d
             && existsb (word_in_document s d) (plus_words query)
             && negb (existsb (word_in_document s d) (minus_words query))
          then Some (fold_left
                       (λ acc word,
                          if word_in_document s d word
                          then (acc + tf_idf log s d word)%Q else acc)
                       (plus_words query) 0%Q)
          else None.
Proof.
  intros Hstored. unfold FindAllDocuments.
  destruct (plus_loop s document_predicate (plus_words query) ∅ Hstored)
    as (m1 & Hm1 & Hlookup1).
  rewrite Hm1. cbn [mbind res_bind].
  set (m2 := fold_left (erase_matches s) (minus_words query) m1).
  assert (∀ d, m2 !! d
               = if selects s document_predicate d
                    && existsb (word_in_document s d) (plus_words query)
                    && negb (existsb (word_in_document s d) (minus_words query))
                 then Some (fold_left
                              (λ acc word,
                                 if word_in_document s d word
                                 then (acc + tf_idf log s d word)%Q else acc)
                              (plus_words query) 0%Q)
                 else None) as Hlookup2.
  { intros d. unfold m2. rewrite minus_loop_lookup, Hlookup1, lookup_empty.
    destruct (existsb _ (minus_words query)); [by rewrite andb_false_r |].
    by rewrite andb_true_r. }
  exists m2. split; [| done].
  rewrite emit_loop_Ok; [done |].
  intros [d rel] Hentry%elem_of_in_key_order. rewrite Hlookup2 in Hentry.
  destruct (selects s document_predicate d) eqn:Hsel; [| done].
  apply selects_stored in Hsel as (data & Hdata & _). by exists data.
Qed.

End RankingLoops.

(** ** [FindTopDocuments] *)

Section TopDocuments.

Context (SplitIntoWords : string → list string) (log : Q → Q).

Lemma ParseQuery_sorted_words (s : SearchServer) (text : string) (query : Query) :
  ParseQuery SplitIntoWords s text true = Ok query →
  (∀ word, word ∈ plus_words query
     ↔ word ∈ SplitIntoWords text
       ∧ String.prefix "-" word = false ∧ IsStopWord s word = false)
  ∧ (∀ word, word ∈ minus_words query
       ↔ String.append "-" word ∈ SplitIntoWords text ∧ IsStopWord s word = false).
Proof.
  intros Hquery. pose proof (ParseQuery_Ok_inv _ _ _ _ _ Hquery) as Hwell.
  rewrite ParseQuery_Ok in Hquery by done. cbn zeta in Hquery.
  injection Hquery as <-. cbn [plus_words minus_words]. split; intros word.
  - rewrite (elem_of_sort_unique String.ltb String_ltb_irrefl String_ltb_trans
               string_lt_trichotomy).
    apply elem_of_plus_tokens.
  - rewrite (elem_of_sort_unique String.ltb String_ltb_irrefl String_ltb_trans
               string_lt_trichotomy).
    apply elem_of_minus_tokens.
Qed.

Lemma FindTopDocuments_Ok (s : SearchServer) (raw_query : string)
    (document_predicate : DocumentPredicate) (query : Query) :
  postings_are_stored s →
  ParseQuery SplitIntoWords s raw_query true = Ok query →
  ∃ m,
    FindTopDocuments SplitIntoWords log s raw_query document_predicate
    = Ok (truncate MAX_RESULT_DOCUMENT_COUNT
            (std_sort by_relevance (map (hit_of s) (by_id m))))
    ∧ ∀ d, m !! d
        = if selects s document_predicate d
             && existsb (word_in_document s d) (plus_words query)
             && negb (existsb (word_in_document s d) (minus_words query))
          then Some (fold_left
                       (λ acc word,
                          if word_in_document s d word
                          then (acc + tf_idf log s d word)%Q else acc)
                       (plus_words query) 0%Q)
          else None.
Proof.
  intros Hstored Hquery. unfold FindTopDocuments. rewrite Hquery. cbn [mbind res_bind].
  destruct (FindAllDocuments_Ok log s query document_predicate Hstored)
    as (m & -> & Hlookup).
  by exists m.
Qed.

Lemma FindTopDocuments_parses (s : SearchServer) (raw_query : string)
    (document_predicate : DocumentPredicate) (hits : list Document) :
  FindTopDocuments SplitIntoWords log s raw_query document_predicate = Ok hits →
  ∃ query, ParseQuery SplitIntoWords s raw_query true = Ok query.
Proof.
  unfold FindTopDocuments. intros (query & Hquery & _)%bind_Ok. by exists query.
Qed.

Lemma FindTopDocuments_hit (s : SearchServer) (raw_query : string)
    (document_predicate : DocumentPredicate) (query : Query)
    (hits : list Document) (hit : Document) :
  postings_are_stored s →
  ParseQuery SplitIntoWords s raw_query true = Ok query →
  FindTopDocuments SplitIntoWords log s raw_query document_predicate = Ok hits →
  hit ∈ hits →
  selects s document_predicate (id hit) = true
  ∧ existsb (word_in_document s (id hit)) (plus_words query) = true
  ∧ existsb (word_in_document s (id hit)) (minus_words query) = false
  ∧ relevance hit
    = fold_left
        (λ acc word,
           if word_in_document s (id hit) word
           then (acc + tf_idf log s (id hit) word)%Q else acc)
        (plus_words query) 0%Q
  ∧ rating hit = default 0 (DocumentData.rating <$> documents_ s !! id hit).
Proof.
  intros Hstored Hquery Hhits Hhit.
  destruct (FindTopDocuments_Ok s raw_query document_predicate query Hstored Hquery)
    as (m & Htop & Hlookup).
  rewrite Htop in Hhits. injection Hhits as <-.
  apply truncate_subset in Hhit. rewrite std_sort_Permutation in Hhit.
  apply elem_of_hits in Hhit as (d & rel & Hm & ->). cbn [hit_of id relevance rating fst snd].
  rewrite Hlookup in Hm.
  destruct (selects s document_predicate d); [| done].
  destruct (existsb _ (plus_words query)); [| done].
  destruct (existsb _ (minus_words query)); [done |].
  cbn in Hm. by injection Hm as <-.
Qed.

Lemma FindTopDocuments_distinct (s : SearchServer) (raw_query : string)
    (document_predicate : DocumentPredicate) (hits : list Document) :
  postings_are_stored s →
  FindTopDocuments SplitIntoWords log s raw_query document_predicate = Ok hits →
  NoDup (map id hits).
Proof.
  intros Hstored Hhits.
  destruct (FindTopDocuments_parses _ _ _ _ Hhits) as [query Hquery].
  destruct (FindTopDocuments_Ok s raw_query document_predicate query Hstored Hquery)
    as (m & Htop & _).
  rewrite Htop in Hhits. injection Hhits as <-.
  apply truncate_NoDup. rewrite map_fmap, std_sort_Permutation, <- map_fmap, hit_ids.
  apply NoDup_keys_in_order.
Qed.



(** X24.  On a server reached by [AddDocument] and [RemoveDocument] calls,
    the relevance of a hit of [FindTopDocuments] is the sum, over the plus
    words of the parsed query (each once), of the term's frequency in the
    document times [log] of the document count divided by the number of
    postings of the term; a term without a posting for the document adds
    nothing. *)
Theorem FindTopDocuments_relevance_is_tf_idf
    (stop_words : gset string) (ops : list operation) (s : SearchServer)
    (raw_query : string) (query : Query) (document_predicate : DocumentPredicate)
    (hits : list Document) (hit : Document) :
  run SplitIntoWords ops (fresh stop_words) = Some s →
  ParseQuery SplitIntoWords s raw_query true = Ok query →
  FindTopDocuments SplitIntoWords log s raw_query document_predicate = Ok hits →
  hit ∈ hits →
  (relevance hit == Qsum (map (tf_idf log s (id hit)) (plus_words query)))%Q.
Proof.
  intros Hrun Hquery Hhits Hhit.
  pose proof (run_consistent SplitIntoWords ops _ _ (fresh_consistent stop_words) Hrun)
    as Hs%consistent_postings_are_stored.
  destruct (FindTopDocuments_hit s raw_query document_predicate query hits hit
              Hs Hquery Hhits Hhit) as (_ & _ & _ & -> & _).
  rewrite term_sum_Qsum. ring.
Qed.


(** X26.  On a server reached by [AddDocument] and [RemoveDocument] calls,
    [FindTopDocuments(raw_query, status)] returns only documents stored with
    that status, and [FindTopDocuments(raw_query)] only documents stored as
    [ACTUAL]. *)
Theorem FindTopDocuments_by_status_returns_that_status
    (stop_words : gset string) (ops : list operation) (s : SearchServer)
    (raw_query : string) (status : DocumentStatus) :
  run SplitIntoWords ops (fresh stop_words) = Some s →
  (∀ hits hit,
     FindTopDocuments_status SplitIntoWords log s raw_query status = Ok hits →
     hit ∈ hits → DocumentData.status <$> documents_ s !! id hit = Some status)
  ∧ (∀ hits hit,
       FindTopDocuments_actual SplitIntoWords log s raw_query = Ok hits →
       hit ∈ hits → DocumentData.status <$> documents_ s !! id hit = Some ACTUAL).
Proof.
  intros Hrun.
  pose proof (run_consistent SplitIntoWords ops _ _ (fresh_consistent stop_words) Hrun)
    as Hs%consistent_postings_are_stored.
  assert (∀ status hits hit,
            FindTopDocuments_status SplitIntoWords log s raw_query status = Ok hits →
            hit ∈ hits → DocumentData.status <$> documents_ s !! id hit = Some status)
    as Hstatus.
  { clear status. intros status hits hit Hhits Hhit. unfold FindTopDocuments_status in Hhits.
    destruct (FindTopDocuments_parses _ _ _ _ Hhits) as [query Hquery].
    destruct (FindTopDocuments_hit s raw_query _ query hits hit Hs Hquery Hhits Hhit)
      as (Hsel & _).
    apply selects_stored in Hsel as (data & -> & Heq%bool_decide_eq_true).
    cbn. by rewrite Heq. }
  split; [apply Hstatus |]. intros hits hit. apply Hstatus.
Qed.

End TopDocuments.



Lemma FindTopDocuments_relevance_is_tf_idf_witness :
  Forall (λ hit, (relevance hit
                  == Qsum (map (tf_idf log_stub example_server (id hit)) ["a"; "with"]))%Q)
    example_hits.
Proof.
  apply Forall_forall. intros hit Hhit.
  apply (FindTopDocuments_relevance_is_tf_idf split_on_spaces log_stub
           example_stop_words example_operations example_server "a with"
           (mkQuery ["a"; "with"] []) any_document example_hits hit).
  - vm_compute. reflexivity.
  - vm_compute. reflexivity.
  - vm_compute. reflexivity.
  - exact Hhit.
Defined.


Lemma FindTopDocuments_by_status_returns_that_status_witness :
  (∀ hits hit,
     FindTopDocuments_status split_on_spaces log_stub example_server "a with" BANNED
     = Ok hits →
     hit ∈ hits → DocumentData.status <$> documents_ example_server !! id hit = Some BANNED)
  ∧ (∀ hits hit,
       FindTopDocuments_actual split_on_spaces log_stub example_server "a with" = Ok hits →
       hit ∈ hits → DocumentData.status <$> documents_ example_server !! id hit = Some ACTUAL).
Proof.
  apply (FindTopDocuments_by_status_returns_that_status split_on_spaces log_stub
           example_stop_words example_operations example_server "a with" BANNED).
  vm_compute. reflexivity.
Defined.

(** ** [ConcurrentMap] as a map *)

Section Buckets.

Context {Value : Type}.

Lemma BuildOrdinaryMap_from_union (bucket : nat) (megamap_ : list (gmap Z Value)) (total : gmap Z Value) :
  (ConcurrentMap.BuildOrdinaryMap_from bucket megamap_ total).1
  = fold_left (∪) megamap_ total.
Proof.
  revert bucket total. induction megamap_ as [| item rest IH]; intros bucket total.
  - done.
  - cbn [ConcurrentMap.BuildOrdinaryMap_from fold_left].
    specialize (IH (S bucket) (total ∪ item)).
    by destruct (ConcurrentMap.BuildOrdinaryMap_from (S bucket) rest (total ∪ item)).
Qed.

Lemma union_of_buckets_lookup (megamap_ : list (gmap Z Value)) (total : gmap Z Value) (key : Z) (own : nat) :
  (∀ bucket item, megamap_ !! bucket = Some item → is_Some (item !! key) → bucket = own) →
  fold_left (∪) megamap_ total !! key
  = match total !! key with
    | Some value => Some value
    | None => megamap_ !! own ≫= λ item, item !! key
    end.
Proof.
  revert total own. induction megamap_ as [| item rest IH]; intros total own Hown.
  - cbn. by destruct (total !! key).
  - cbn [fold_left]. destruct own as [| own].
    + rewrite (IH (total ∪ item) (length rest)).
      * rewrite lookup_union, (lookup_ge_None_2 rest (length rest)) by done.
        cbn. by destruct (total !! key), (item !! key).
      * intros bucket item' Hbucket Hkey. by specialize (Hown (S bucket) item' Hbucket Hkey).
    + rewrite (IH (total ∪ item) own).
      * rewrite lookup_union. cbn.
        destruct (item !! key) as [value |] eqn:Hitem.
        { by specialize (Hown 0%nat item eq_refl (ltac:(by eexists))). }
        by destruct (total !! key).
      * intros bucket item' Hbucket Hkey.
        specialize (Hown (S bucket) item' Hbucket Hkey). congruence.
Qed.

Lemma BuildOrdinaryMap_lookup (megamap_ : list (gmap Z Value)) (key : Z) :
  keys_in_own_bucket megamap_ →
  (ConcurrentMap.BuildOrdinaryMap megamap_).1 !! key
  = megamap_ !! ConcurrentMap.select megamap_ key ≫= λ item, item !! key.
Proof.
  intros Hown. unfold ConcurrentMap.BuildOrdinaryMap.
  rewrite BuildOrdinaryMap_from_union.
  rewrite (union_of_buckets_lookup megamap_ ∅ key (ConcurrentMap.select megamap_ key)).
  - by rewrite lookup_empty.
  - intros bucket item Hbucket Hkey. symmetry. by eapply Hown.
Qed.

Lemma select_in_range (megamap_ : list (gmap Z Value)) (key : Z) :
  length megamap_ ≠ 0%nat →
  (ConcurrentMap.select megamap_ key < length megamap_)%nat.
Proof.
  intros Hlen. unfold ConcurrentMap.select.
  pose proof (Z.mod_pos_bound (key mod 2 ^ 64) (Z.of_nat (length megamap_))). lia.
Qed.

Lemma select_insert (megamap_ : list (gmap Z Value)) (bucket : nat) (item : gmap Z Value) (key : Z) :
  ConcurrentMap.select (<[bucket := item]> megamap_) key = ConcurrentMap.select megamap_ key.
Proof. unfold ConcurrentMap.select. by rewrite length_insert. Qed.

Lemma select_map (megamap_ : list (gmap Z Value)) (f : gmap Z Value → gmap Z Value) (key : Z) :
  ConcurrentMap.select (map f megamap_) key = ConcurrentMap.select megamap_ key.
Proof. unfold ConcurrentMap.select. by rewrite length_map. Qed.

Lemma delete_union_of_buckets (megamap_ : list (gmap Z Value)) (total : gmap Z Value) (key : Z) :
  fold_left (∪) (map (delete key) megamap_) (delete key total)
  = delete key (fold_left (∪) megamap_ total).
Proof.
  revert total. induction megamap_ as [| item rest IH]; intros total; [done |].
  cbn [map fold_left]. by rewrite <- delete_union, IH.
Qed.

Lemma ConcurrentMap_new_own (bucket_count : nat) :
  keys_in_own_bucket (ConcurrentMap.ConcurrentMap_new (Value := Value) bucket_count).
Proof.
  intros bucket item key Hbucket [value Hkey]. unfold ConcurrentMap.ConcurrentMap_new in *.
  apply lookup_replicate in Hbucket as [-> _]. by rewrite lookup_empty in Hkey.
Qed.

(** X27.  When every key is in the bucket [operator[]] selects for it, the
    statement [map[key].ref_to_value = f(map[key].ref_to_value)] keeps it so
    and acts on the map that [BuildOrdinaryMap] returns as
    [m[key] = f(m[key])] acts on a [std::map]: the key gets [f] of its old
    value, or of [zero] (the value-initialised [Value]) when it was absent,
    and no other key changes. *)
Theorem ConcurrentMap_update_is_map_update
    (zero : Value) (f : Value → Value) (key : Z)
    (megamap_ megamap' : ConcurrentMap.buckets (Value := Value)) (trace : list ConcurrentMap.event) :
  keys_in_own_bucket megamap_ →
  ConcurrentMap.update zero f key megamap_ = Ok (megamap', trace) →
  keys_in_own_bucket megamap'
  ∧ (ConcurrentMap.BuildOrdinaryMap megamap').1
    = <[key := f (default zero ((ConcurrentMap.BuildOrdinaryMap megamap_).1 !! key))]>
        (ConcurrentMap.BuildOrdinaryMap megamap_).1.
Proof.
  intros Hown. unfold ConcurrentMap.update. unfold ConcurrentMap.buckets in *.
  case_bool_decide as Hlen; [done |]. cbn zeta. intros [= <- _].
  pose proof (select_in_range megamap_ key Hlen) as Hrange.
  destruct (lookup_lt_is_Some_2 megamap_ _ Hrange) as [local Hlocal].
  rewrite Hlocal. cbn [from_option Datatypes.id].
  set (own := ConcurrentMap.select megamap_ key) in *.
  set (value := f (default zero (local !! key))).
  assert (keys_in_own_bucket (<[own := <[key := value]> local]> megamap_)) as Hown'.
  { intros bucket item k Hbucket Hk. rewrite select_insert.
    unfold ConcurrentMap.buckets in *.
    destruct (decide (bucket = own)) as [-> | Hne].
    - rewrite list_lookup_insert_eq in Hbucket by done. injection Hbucket as <-.
      destruct (decide (k = key)) as [-> | Hk']; [done |].
      rewrite lookup_insert_ne in Hk by done. by apply (Hown own local).
    - rewrite list_lookup_insert_ne in Hbucket by done. by apply (Hown bucket item). }
  split; [done |].
  apply map_eq. intros k. rewrite (BuildOrdinaryMap_lookup _ k Hown'), select_insert.
  unfold ConcurrentMap.buckets in *.
  destruct (decide (k = key)) as [-> | Hk].
  - rewrite lookup_insert_eq. fold own. rewrite list_lookup_insert_eq by done. cbn.
    rewrite lookup_insert_eq. unfold value.
    rewrite (BuildOrdinaryMap_lookup _ key Hown). fold own. by rewrite Hlocal.
  - rewrite lookup_insert_ne by done. rewrite (BuildOrdinaryMap_lookup _ k Hown).
    destruct (decide (ConcurrentMap.select megamap_ k = own)) as [-> | Hne].
    + rewrite list_lookup_insert_eq by done. rewrite Hlocal. cbn.
      by rewrite lookup_insert_ne.
    + by rewrite list_lookup_insert_ne.
Qed.

(** X28.  Whatever the buckets hold, [Erase(key)] acts on the map that
    [BuildOrdinaryMap] returns as [erase(key)] acts on a [std::map]: the key
    is gone and every other entry is as before; it keeps every key in its
    own bucket.  In a map as the constructor leaves it every key is in its
    own bucket, and [BuildOrdinaryMap] returns the empty map for it. *)
Theorem ConcurrentMap_Erase_is_map_erase
    (key : Z) (megamap_ : ConcurrentMap.buckets (Value := Value)) :
  (ConcurrentMap.BuildOrdinaryMap (ConcurrentMap.Erase key megamap_).1).1
  = delete key (ConcurrentMap.BuildOrdinaryMap megamap_).1
  ∧ (keys_in_own_bucket megamap_ →
     keys_in_own_bucket (ConcurrentMap.Erase key megamap_).1)
  ∧ ∀ bucket_count,
      keys_in_own_bucket (ConcurrentMap.ConcurrentMap_new (Value := Value) bucket_count)
      ∧ (ConcurrentMap.BuildOrdinaryMap
           (ConcurrentMap.ConcurrentMap_new (Value := Value) bucket_count)).1 = ∅.
Proof.
  unfold ConcurrentMap.Erase. rewrite Erase_from_erases.
  unfold ConcurrentMap.buckets in *. split; [| split].
  - unfold ConcurrentMap.BuildOrdinaryMap. rewrite !BuildOrdinaryMap_from_union.
    rewrite <- delete_union_of_buckets. by rewrite delete_empty.
  - intros Hown bucket item k Hbucket [value Hk]. rewrite select_map.
    unfold ConcurrentMap.buckets in *.
    rewrite map_fmap, list_lookup_fmap in Hbucket.
    destruct (megamap_ !! bucket) as [item0 |] eqn:Hitem0; [| done].
    cbn in Hbucket. injection Hbucket as <-.
    apply lookup_delete_Some in Hk as [_ Hk]. apply (Hown bucket item0); [done |].
    by eexists.
  - intros bucket_count. split; [apply ConcurrentMap_new_own |].
    apply map_eq. intros k.
    rewrite (BuildOrdinaryMap_lookup _ k (ConcurrentMap_new_own bucket_count)).
    rewrite lookup_empty. unfold ConcurrentMap.ConcurrentMap_new.
    destruct (replicate bucket_count ∅ !! _) as [item |] eqn:Hitem; [| done].
    apply lookup_replicate in Hitem as [-> _]. cbn. apply lookup_empty.
Qed.

End Buckets.

Lemma ConcurrentMap_update_is_map_update_witness :
  keys_in_own_bucket [∅; {[ 7 := (3 # 2)%Q ]}; ∅]
  ∧ (ConcurrentMap.BuildOrdinaryMap [∅; {[ 7 := (3 # 2)%Q ]}; ∅]).1
    = <[7 := (1 + default 0 ((ConcurrentMap.BuildOrdinaryMap example_buckets).1 !! 7%Z))%Q]>
        (ConcurrentMap.BuildOrdinaryMap example_buckets).1.
Proof.
  apply (ConcurrentMap_update_is_map_update 0%Q (Qplus 1) 7 example_buckets
           [∅; {[ 7 := (3 # 2)%Q ]}; ∅]
           [ConcurrentMap.lock 1; ConcurrentMap.subscript 1 7; ConcurrentMap.unlock 1]).
  - intros bucket item key Hbucket [value Hkey].
    destruct bucket as [| [| [| bucket]]]; cbn in Hbucket; try discriminate;
      injection Hbucket as <-; try (by rewrite lookup_empty in Hkey).
    apply lookup_singleton_Some in Hkey as [<- _]. reflexivity.
  - vm_compute. reflexivity.
Defined.

(** ** [ProcessQueries] and the constructor *)

Lemma concat_of_short_lists {A : Type} (n : nat) (lists : list (list A)) :
  Forall (λ l, (length l ≤ n)%nat) lists →
  (length (concat lists) ≤ n * length lists)%nat.
Proof.
  induction 1 as [| l lists Hl _ IH]; cbn [concat length]; [lia |].
  rewrite length_app. lia.
Qed.

Section BatchTheorems.

Context (SplitIntoWords : string → list string) (log : Q → Q).

Lemma FindTopDocuments_cases (s : SearchServer) (raw_query : string)
    (document_predicate : DocumentPredicate) :
  postings_are_stored s →
  (∃ hits, FindTopDocuments SplitIntoWords log s raw_query document_predicate = Ok hits
           ∧ (length hits ≤ MAX_RESULT_DOCUMENT_COUNT)%nat)
  ∨ (∃ e, FindTopDocuments SplitIntoWords log s raw_query document_predicate = Throw e
          ∧ ∃ token, token ∈ SplitIntoWords raw_query ∧ malformed_token token = true).
Proof.
  intros Hs.
  destruct (ParseQuery SplitIntoWords s raw_query true) as [query | e |] eqn:Hquery.
  - destruct (FindTopDocuments_Ok SplitIntoWords log s raw_query document_predicate
                query Hs Hquery) as (m & -> & _).
    left. eexists. split; [done |]. apply truncate_length.
  - right. exists e. unfold FindTopDocuments. rewrite Hquery. split; [done |].
    apply (ParseQuery_throws SplitIntoWords s raw_query true). by rewrite Hquery.
  - by apply ParseQuery_defined in Hquery.
Qed.

Lemma ProcessQueries_cases (s : SearchServer) (queries : list string) :
  postings_are_stored s →
  (∃ documents_lists,
      ProcessQueries SplitIntoWords log s queries = Returned documents_lists
      ∧ Forall2 (λ query hits,
                   FindTopDocuments_actual SplitIntoWords log s query = Ok hits)
          queries documents_lists
      ∧ Forall (λ hits, (length hits ≤ MAX_RESULT_DOCUMENT_COUNT)%nat) documents_lists)
  ∨ (ProcessQueries SplitIntoWords log s queries = Terminated
     ∧ ∃ query token, query ∈ queries ∧ token ∈ SplitIntoWords query
                      ∧ malformed_token token = true).
Proof.
  intros Hs. unfold ProcessQueries. cbn zeta.
  induction queries as [| query queries IH].
  - left. exists []. by repeat constructor.
  - assert ((∃ hits, FindTopDocuments_actual SplitIntoWords log s query = Ok hits
                     ∧ (length hits ≤ MAX_RESULT_DOCUMENT_COUNT)%nat)
            ∨ (∃ e, FindTopDocuments_actual SplitIntoWords log s query = Throw e
                    ∧ ∃ token, token ∈ SplitIntoWords query
                               ∧ malformed_token token = true)) as Hhead
      by (by apply FindTopDocuments_cases).
    cbn [map existsb]. revert IH.
    destruct (existsb is_Undefined _) eqn:HU.
    { intros [(? & ? & _) | (? & _)]; done. }
    destruct (existsb is_Throw _) eqn:HT; intros IH.
    + destruct IH as [(? & ? & _) | (_ & q & token & Hq & Htoken)]; [done |].
      right. split.
      * destruct Hhead as [(hits & -> & _) | (e & -> & _)]; done.
      * exists q, token. split; [by right | done].
    + destruct IH as [(lists & [= <-] & Hall & Hlen) | (? & _)]; [| done].
      destruct Hhead as [(hits & Hhits & Hshort) | (e & Hthrow & token & Htoken)].
      * left. rewrite Hhits. cbn [is_Undefined is_Throw orb]. eexists.
        split; [done |]. split; by constructor.
      * right. rewrite Hthrow. cbn [is_Undefined is_Throw orb]. split; [done |].
        exists query, token. split; [left | done].
Qed.


End BatchTheorems.

(** X30.  The constructor from a container of stop words throws
    [invalid_argument] exactly when a stop word holds a character below
    0x20; otherwise it returns a server without documents whose stop words
    are the non-empty strings of the container. *)
Theorem new_SearchServer_outcome (stop_words : list string) :
  match new_SearchServer stop_words with
  | Ok s =>
      (∀ word, word ∈ stop_words → IsValidWord word = true)
      ∧ (∀ word, IsStopWord s word = true ↔ word ∈ stop_words ∧ word ≠ "")
      ∧ s = fresh (stop_words_ s)
      ∧ GetDocumentCount s = 0
      ∧ begin_to_end s = []
  | Throw e =>
      e = invalid_argument "Some of stop words are invalid"
      ∧ ∃ word, word ∈ stop_words ∧ IsValidWord word = false
  | Undefined => False
  end.
Proof.
  unfold new_SearchServer, MakeUniqueNonEmptyStrings. cbn zeta.
  destruct (valid_or_not (elements (list_to_set (C := gset string)
                                      (filter (λ str, str ≠ "") stop_words))))
    as [Hvalid | (word & Hword & Hbad)].
  - assert (forallb IsValidWord
              (elements (list_to_set (C := gset string)
                           (filter (λ str, str ≠ "") stop_words))) = true) as ->.
    { apply forallb_forall. intros word Hword%list_elem_of_In. by apply Hvalid. }
    split; [| split; [| split; [| split]]].
    + intros word Hword. destruct (decide (word = "")) as [-> | Hne]; [done |].
      apply Hvalid. rewrite elem_of_elements, elem_of_list_to_set.
      by apply list_elem_of_filter.
    + intros word. unfold IsStopWord. cbn [stop_words_].
      rewrite bool_decide_eq_true, elem_of_list_to_set, list_elem_of_filter.
      split; intros [? ?]; done.
    + done.
    + done.
    + done.
  - assert (forallb IsValidWord
              (elements (list_to_set (C := gset string)
                           (filter (λ str, str ≠ "") stop_words))) = false) as ->.
    { apply not_true_is_false. intros Hall.
      rewrite forallb_forall in Hall. apply list_elem_of_In, Hall in Hword. congruence. }
    split; [done |]. exists word. split; [| done].
    rewrite elem_of_elements, elem_of_list_to_set in Hword.
    by apply list_elem_of_filter in Hword as [_ ?].
Qed.

